(** * go-trie: a rune-keyed trie and its hyphenation-pattern variant

    A shallow embedding of [trie.go] (type [Trie]) and of [value_trie.go]
    (type [ValueTrie]) together with the properties of their operations.

    Go strings are byte sequences; they are modelled by [string], whose
    characters are the 8-bit [ascii] values.  The standard-library routines
    the code relies on ([unicode/utf8], [range] over a string,
    [strings.Reader.ReadRune], [strings.Map], [sort.Strings]) are modelled
    in the first modules from their documented behaviour.

    A method that updates its receiver in place is a function that returns
    the updated trie; a method that can panic returns an [option], [None]
    being the panic.  The maps of children are [gmap]s: a loop over a Go map
    visits the entries in no specified order, and the two loops of the code
    ([Size], [buildMembers]) give results that do not depend on it once
    [Members] has sorted them. *)

From Stdlib Require Import ZArith Lia Ascii String.
From stdpp Require Import gmap strings list fin_maps sorting.

Local Open Scope Z_scope.
Local Set Warnings "-register-all".

(** A rune is a Go [int32] holding a code point. *)
Definition rune := Z.

(** ** Bytes and Go strings *)

Module gostring.

(** The numeric value of a byte of a string. *)
Definition byteVal (c : ascii) : Z := Z.of_N (N_of_ascii c).

(** The byte with a given value (the value is taken modulo 256, as the Go
    conversion [byte(x)] does). *)
Definition byteOf (z : Z) : ascii := ascii_of_N (Z.to_N (z mod 256)).

(** [len(s)]: the number of bytes of [s]. *)
Definition len (s : string) : Z := Z.of_nat (String.length s).

(** [s[i]]: indexing a string; [None] stands for the run-time panic
    "index out of range". *)
Definition index (s : string) (i : Z) : option Z :=
  if (i <? 0) || (len s <=? i) then None
  else byteVal <$> String.get (Z.to_nat i) s.

(** [s[lo:hi]]: slicing a string; [None] stands for the run-time panic
    "slice bounds out of range". *)
Definition slice (s : string) (lo hi : Z) : option string :=
  if (lo <? 0) || (hi <? lo) || (len s <? hi) then None
  else Some (String.substring (Z.to_nat lo) (Z.to_nat (hi - lo)) s).

(** Concatenation of a list of strings. *)
Definition concat (l : list string) : string := foldr String.append EmptyString l.

End gostring.

(** ** The package [unicode/utf8] *)

Module utf8.
Import gostring.

Definition RuneError : rune := 0xFFFD.
Definition MaxRune : rune := 0x10FFFF.
Definition surrogateMin : rune := 0xD800.
Definition surrogateMax : rune := 0xDFFF.

Definition maskx : Z := 0x3F.
Definition mask2 : Z := 0x1F.
Definition mask3 : Z := 0x0F.
Definition mask4 : Z := 0x07.
Definition tx : Z := 0x80.
Definition t2 : Z := 0xC0.
Definition t3 : Z := 0xE0.
Definition t4 : Z := 0xF0.
Definition locb : Z := 0x80.
Definition hicb : Z := 0xBF.

(** What the first byte of a sequence announces: a one-byte rune, an
    invalid byte, or a sequence of [sz] bytes whose second byte must lie in
    [lo..hi] (the table [first] and the array [acceptRanges] of the Go
    implementation). *)
Inductive firstInfo : Type :=
| ascii1
| invalid
| multi (sz : Z) (lo hi : Z).

Definition first (s0 : Z) : firstInfo :=
  if s0 <? 0x80 then ascii1
  else if s0 <? 0xC2 then invalid
  else if s0 <? 0xE0 then multi 2 locb hicb
  else if s0 =? 0xE0 then multi 3 0xA0 hicb
  else if s0 <? 0xED then multi 3 locb hicb
  else if s0 =? 0xED then multi 3 locb 0x9F
  else if s0 <? 0xF0 then multi 3 locb hicb
  else if s0 =? 0xF0 then multi 4 0x90 hicb
  else if s0 <? 0xF4 then multi 4 locb hicb
  else if s0 =? 0xF4 then multi 4 locb 0x8F
  else invalid.

(** [utf8.DecodeRuneInString]: the first rune of [s] and its width in
    bytes; [(RuneError, 0)] on the empty string and [(RuneError, 1)] on an
    ill-formed sequence. *)
Definition DecodeRuneInString (s : string) : rune * Z :=
  match s with
  | EmptyString => (RuneError, 0)
  | String c0 r0 =>
    let s0 := byteVal c0 in
    match first s0 with
    | ascii1 => (s0, 1)
    | invalid => (RuneError, 1)
    | multi sz lo hi =>
      match r0 with
      | EmptyString => (RuneError, 1)
      | String c1 r1 =>
        let s1 := byteVal c1 in
        if (s1 <? lo) || (hi <? s1) then (RuneError, 1)
        else if sz <=? 2 then
          (Z.lor (Z.shiftl (Z.land s0 mask2) 6) (Z.land s1 maskx), 2)
        else
          match r1 with
          | EmptyString => (RuneError, 1)
          | String c2 r2 =>
            let s2 := byteVal c2 in
            if (s2 <? locb) || (hicb <? s2) then (RuneError, 1)
            else if sz <=? 3 then
              (Z.lor (Z.lor (Z.shiftl (Z.land s0 mask3) 12)
                            (Z.shiftl (Z.land s1 maskx) 6))
                     (Z.land s2 maskx), 3)
            else
              match r2 with
              | EmptyString => (RuneError, 1)
              | String c3 r3 =>
                let s3 := byteVal c3 in
                if (s3 <? locb) || (hicb <? s3) then (RuneError, 1)
                else
                  (Z.lor (Z.lor (Z.lor (Z.shiftl (Z.land s0 mask4) 18)
                                       (Z.shiftl (Z.land s1 maskx) 12))
                                (Z.shiftl (Z.land s2 maskx) 6))
                         (Z.land s3 maskx), 4)
              end
          end
      end
    end
  end.

(** The bytes [utf8.EncodeRune] writes for a rune that is not replaced. *)
Definition encode3 (r : rune) : string :=
  String (byteOf (Z.lor t3 (Z.shiftr r 12)))
 (String (byteOf (Z.lor tx (Z.land (Z.shiftr r 6) maskx)))
 (String (byteOf (Z.lor tx (Z.land r maskx))) EmptyString)).

(** [utf8.EncodeRune], returning the bytes written ([buf[0:numChars]]).
    Surrogates and values out of range are written as [RuneError]. *)
Definition EncodeRune (r : rune) : string :=
  if (0 <=? r) && (r <=? 0x7F) then
    String (byteOf r) EmptyString
  else if (0 <=? r) && (r <=? 0x7FF) then
    String (byteOf (Z.lor t2 (Z.shiftr r 6)))
   (String (byteOf (Z.lor tx (Z.land r maskx))) EmptyString)
  else if (r <? 0) || (MaxRune <? r)
          || ((surrogateMin <=? r) && (r <=? surrogateMax)) then
    encode3 RuneError
  else if r <=? 0xFFFF then
    encode3 r
  else
    String (byteOf (Z.lor t4 (Z.shiftr r 18)))
   (String (byteOf (Z.lor tx (Z.land (Z.shiftr r 12) maskx)))
   (String (byteOf (Z.lor tx (Z.land (Z.shiftr r 6) maskx)))
   (String (byteOf (Z.lor tx (Z.land r maskx))) EmptyString))).

(** [utf8.RuneLen]: the number of bytes of the encoding of a rune, [-1] if
    the rune is not a valid value to encode. *)
Definition RuneLen (r : rune) : Z :=
  if r <? 0 then -1
  else if r <=? 0x7F then 1
  else if r <=? 0x7FF then 2
  else if (surrogateMin <=? r) && (r <=? surrogateMax) then -1
  else if r <=? 0xFFFF then 3
  else if r <=? MaxRune then 4
  else -1.

(** A Unicode scalar value: a code point that is not a surrogate. *)
Definition scalar (r : rune) : Prop :=
  0 <= r <= MaxRune /\ ~ (surrogateMin <= r <= surrogateMax).

(** The UTF-8 encoding of a sequence of code points. *)
Definition encodeRunes (rs : list rune) : string :=
  concat (EncodeRune <$> rs).

End utf8.

(** ** Iterating over a string *)

Module goiter.
Import gostring utf8.

(** [for pos, r := range s]: the byte position and the value of every
    rune of [s]; an ill-formed byte yields [RuneError] and the iteration
    advances by one byte.  [pos] is the position of the first byte of
    [s] within the whole string, [skip] the number of bytes still to pass
    over because they belong to the rune decoded last. *)
Fixpoint rangeFrom (s : string) (pos : Z) (skip : nat) : list (Z * rune) :=
  match s with
  | EmptyString => []
  | String _ t =>
    match skip with
    | S k => rangeFrom t (pos + 1) k
    | O =>
      let '(r, n) := DecodeRuneInString s in
      (pos, r) :: rangeFrom t (pos + 1) (Z.to_nat n - 1)
    end
  end.

Definition rangeString (s : string) : list (Z * rune) := rangeFrom s 0 0.

(** The runes [strings.NewReader(s).ReadRune()] returns, call after call,
    until it reports [io.EOF]. *)
Definition runes (s : string) : list rune := (rangeString s).*2.

(** [strings.Map(mapping, s)]: the mapping is applied to every rune of
    [s]; a negative result drops the rune, the others are encoded. *)
Definition Map (mapping : rune -> rune) (s : string) : string :=
  encodeRunes (filter (fun r => 0 <= r) (mapping <$> runes s)).

(** A pair of [range s], one byte further. *)
Definition shift1 (pr : Z * rune) : Z * rune := (pr.1 + 1, pr.2).

(** [utf8.RuneCountInString]: the number of runes of [s]. *)
Definition RuneCountInString (s : string) : nat := length (runes s).

(** A string is well-formed UTF-8 when it is the encoding of the code
    points it decodes to: no byte of it was read as [RuneError] in place
    of an ill-formed sequence. *)
Definition wellFormed (s : string) : Prop := encodeRunes (runes s) = s.

(** The length of the longest common prefix of two sequences of runes. *)
Fixpoint commonPrefixLen (a b : list rune) : nat :=
  match a, b with
  | x :: a', y :: b' =>
    if bool_decide (x = y) then S (commonPrefixLen a' b') else O
  | _, _ => O
  end.

End goiter.


(** ** The trie of [trie.go] *)

Module trie.
Import gostring utf8 goiter.

(** A node.  [value] is the Go [interface{}] field: [None] is [nil].
    [children] maps a rune to the sub-trie the node owns for it. *)
Inductive Trie (V : Type) : Type := mkTrie {
  leaf : bool;
  value : option V;
  children : gmap rune (Trie V)
}.
Arguments mkTrie {V} _ _ _.
Arguments leaf {V} _.
Arguments value {V} _.
Arguments children {V} _.

Section methods.
Context {V : Type}.
Local Abbreviation Trie := (Trie V).

Definition NewTrie : Trie := mkTrie false None ∅.

(** [addRunes] returns a pointer to the node at which the addition ends,
    and [AddValue] assigns through it.  In the embedding the caller's
    assignment is the function [k], applied to that node where it sits
    in the tree. *)
Fixpoint addRunes (k : Trie -> Trie) (p : Trie) (r : list rune) : Trie :=
  match r with
  | [] => k (mkTrie true (value p) (children p))
  | r0 :: r' =>
    let n := match children p !! r0 with
             | Some n => n
             | None => NewTrie
             end in
    mkTrie (leaf p) (value p) (<[r0 := addRunes k n r']> (children p))
  end.

Definition AddString (p : Trie) (s : string) : Trie :=
  if len s =? 0 then p
  else addRunes (fun lf => lf) p (runes s).

Definition AddValue (p : Trie) (s : string) (v : option V) : Trie :=
  if len s =? 0 then p
  else addRunes (fun lf => mkTrie (leaf lf) v (children lf)) p (runes s).

(** [removeRunes] updates the nodes in place and returns a boolean; the
    embedding returns the updated node with it. *)
Fixpoint removeRunes (p : Trie) (r : list rune) : Trie * bool :=
  match r with
  | [] =>
    (mkTrie false None (children p), bool_decide (size (children p) = 0%nat))
  | r0 :: r' =>
    match children p !! r0 with
    | Some child =>
      let '(child', empty) := removeRunes child r' in
      let children' :=
        if empty then delete r0 (children p)
        else <[r0 := child']> (children p) in
      (mkTrie (leaf p) (value p) children',
       bool_decide (size children' = 0%nat))
    | None => (p, bool_decide (size (children p) = 0%nat))
    end
  end.

Definition Remove (p : Trie) (s : string) : Trie * bool :=
  if len s =? 0 then (p, bool_decide (size (children p) = 0%nat))
  else removeRunes p (runes s).

(** [includes] returns the node the runes lead to when it is a leaf,
    [None] (the nil pointer) otherwise. *)
Fixpoint includes (p : Trie) (r : list rune) : option Trie :=
  match r with
  | [] => if leaf p then Some p else None
  | r0 :: r' =>
    match children p !! r0 with
    | Some child => includes child r'
    | None => None
    end
  end.

Definition Contains (p : Trie) (s : string) : bool :=
  if len s =? 0 then false
  else bool_decide (includes p (runes s) <> None).

Definition GetValue (p : Trie) (s : string) : option V * bool :=
  if len s =? 0 then (None, false)
  else match includes p (runes s) with
       | None => (None, false)
       | Some lf => (value lf, true)
       end.

(** The loop over [p.children] visits the entries in the order of
    [map_to_list], first entry first. *)
Fixpoint buildMembers (p : Trie) (prefix : string) : list string :=
  (if leaf p then [prefix] else [])
  ++ map_fold (fun r child rest =>
                 buildMembers child (prefix +:+ EncodeRune r) ++ rest)
              [] (children p).

(** [sort.Strings] orders strings byte by byte, as [String.le] does. *)
Definition Members (p : Trie) : list string :=
  merge_sort String.le (buildMembers p EmptyString).

Fixpoint Size (p : Trie) : nat :=
  (size (children p)
   + map_fold (fun _ child sz => Size child + sz) 0 (children p))%nat.

(** The body of the loop of [AllSubstrings], over the pairs [range s]
    yields.  [None] is a run-time panic of a slice expression. *)
Fixpoint allSubstringsLoop (s : string) (p : Trie) (it : list (Z * rune))
         (v : list string) : option (list string) :=
  match it with
  | [] => Some v
  | (pos, r) :: it' =>
    match children p !! r with
    | None => Some v
    | Some child =>
      if leaf child then
        sub ← slice s 0 pos;
        allSubstringsLoop s child it' (v ++ [sub])
      else allSubstringsLoop s child it' v
    end
  end.

Definition AllSubstrings (p : Trie) (s : string) : option (list string) :=
  allSubstringsLoop s p (rangeString s) [].

Fixpoint allSubstringsAndValuesLoop (s : string) (p : Trie)
         (it : list (Z * rune)) (sv : list string) (vv : list (option V))
  : option (list string * list (option V)) :=
  match it with
  | [] => Some (sv, vv)
  | (pos, r) :: it' =>
    match children p !! r with
    | None => Some (sv, vv)
    | Some child =>
      if leaf child then
        sub ← slice s 0 (pos + RuneLen r);
        allSubstringsAndValuesLoop s child it' (sv ++ [sub])
                                   (vv ++ [value child])
      else allSubstringsAndValuesLoop s child it' sv vv
    end
  end.

Definition AllSubstringsAndValues (p : Trie) (s : string)
  : option (list string * list (option V)) :=
  allSubstringsAndValuesLoop s p (rangeString s) [] [].

(** *** Notions used to state the properties *)

(** The node a sequence of runes leads to, whether it is a leaf or
    not. *)
Fixpoint nodeAt (p : Trie) (r : list rune) : option Trie :=
  match r with
  | [] => Some p
  | r0 :: r' =>
    match children p !! r0 with
    | Some child => nodeAt child r'
    | None => None
    end
  end.

(** The paths, from [p], of all the nodes strictly below [p]. *)
Fixpoint nodePaths (p : Trie) : list (list rune) :=
  map_fold (fun r child rest =>
              ([r] :: (cons r <$> nodePaths child)) ++ rest)
           [] (children p).

(** The anchored matches of [r]: the prefixes of [r] that lead from [p] to
    a leaf, shortest first, each with the value of its leaf.  [seen] is
    what was consumed before [p]. *)
Fixpoint prefixMatches (p : Trie) (seen r : list rune)
  : list (list rune * option V) :=
  match r with
  | [] => []
  | r0 :: r' =>
    match children p !! r0 with
    | None => []
    | Some child =>
      (if leaf child then [(seen ++ [r0], value child)] else [])
      ++ prefixMatches child (seen ++ [r0]) r'
    end
  end.

(** What [AddString] and [AddValue] do to the node [addRunes] returns:
    they leave its leaf flag and its children alone. *)
Definition keeps (k : Trie -> Trie) : Prop :=
  forall x, leaf (k x) = leaf x /\ children (k x) = children x.

(** The number of leading runes of [r] for which [p] already has
    nodes. *)
Fixpoint matched (p : Trie) (r : list rune) : nat :=
  match r with
  | [] => O
  | r0 :: r' =>
    match children p !! r0 with
    | Some child => S (matched child r')
    | None => O
    end
  end.

(** The paths, from [p], of the leaves of [p], [p] itself included. *)
Fixpoint leafPaths (p : Trie) : list (list rune) :=
  (if leaf p then [[]] else [])
  ++ map_fold (fun r child rest => (cons r <$> leafPaths child) ++ rest)
              [] (children p).

(** [scalar], computed. *)
Definition scalarb (r : rune) : bool :=
  (0 <=? r) && (r <=? MaxRune)
  && negb ((surrogateMin <=? r) && (r <=? surrogateMax)).

(** What the operations keep of every node below the root: a node
    without children is a leaf, a node that is no leaf has the nil value,
    and the runes of the children are scalar values. *)
Fixpoint nodeOK (c : Trie) : bool :=
  (leaf c || negb (bool_decide (size (children c) = 0%nat)))
  && (leaf c || bool_decide (value c = None))
  && map_fold (fun r child rest => scalarb r && nodeOK child && rest)
              true (children c).

(** And of the root: it is no leaf. *)
Definition wellKept (p : Trie) : bool :=
  negb (leaf p)
  && map_fold (fun r child rest => scalarb r && nodeOK child && rest)
              true (children p).

(** [nodeOK] of all the children of a node, as a proposition. *)
Definition childrenOK (m : gmap rune Trie) : Prop :=
  map_Forall (fun r child => scalar r /\ nodeOK child = true) m.

(** A call of one of the operations that change the trie, and a run of
    such calls on a new trie. *)
Inductive Call : Type :=
| callAddString (s : string)
| callAddValue (s : string) (v : option V)
| callRemove (s : string).

Definition call (p : Trie) (c : Call) : Trie :=
  match c with
  | callAddString s => AddString p s
  | callAddValue s v => AddValue p s v
  | callRemove s => (Remove p s).1
  end.

Definition calls (cs : list Call) : Trie := foldl call NewTrie cs.

End methods.
Arguments Call : clear implicits.
End trie.

(** ** The hyphenation trie of [value_trie.go] *)

Module valuetrie.
Import gostring utf8 goiter.

(** A node carries the integer weight of the rune that leads to it. *)
Inductive ValueTrie : Type := mkValueTrie {
  value : Z;
  leaf : bool;
  children : gmap rune ValueTrie
}.

Definition NewValueTrie : ValueTrie := mkValueTrie 0 false ∅.

(** The channel [iter] is modelled by the sequence of the values sent on
    it that were not received yet: the sender sends them in order and then
    closes the channel, a receive takes the first of them, and a receive
    after the last one returns the zero value, as a receive on a closed
    and drained channel does.  A receive blocks until a value is there or
    the channel is closed, so what [addRunes] receives does not depend on
    how the two goroutines are interleaved.  [AddPatternString] closes the
    channel once more after [addRunes] has returned: in the Go of
    [value_trie.go], which predates Go 1, that is no error, and it changes
    nothing of what was received. *)
Definition recv (iter : list Z) : Z * list Z :=
  match iter with
  | [] => (0, [])
  | val :: iter' => (val, iter')
  end.

Fixpoint addRunes (p : ValueTrie) (r : list rune) (iter : list Z) : ValueTrie :=
  match r with
  | [] => mkValueTrie (value p) true (children p)
  | rune :: r' =>
    let '(val, iter') := recv iter in
    let n := match children p !! rune with
             | Some n => n
             | None => mkValueTrie val false ∅
             end in
    mkValueTrie (value p) (leaf p)
                (<[rune := addRunes n r' iter']> (children p))
  end.

(** [Add] takes the values from a vector: [v.Iter()] sends its elements
    in order and closes the channel. *)
Definition Add (p : ValueTrie) (s : string) (v : list Z) : ValueTrie :=
  if len s =? 0 then p
  else addRunes p (runes s) v.

Definition rune0 : rune := (DecodeRuneInString "0").1.
Definition rune9 : rune := (DecodeRuneInString "9").1.

(** The goroutine of [AddPatternString]: the values it sends on the
    channel before closing it, [None] if indexing the string panics. *)
Fixpoint sendValues (s : string) (strLen : Z) (it : list (Z * rune))
  : option (list Z) :=
  match it with
  | [] => Some []
  | (pos, rune) :: it' =>
    if (rune0 <=? rune) && (rune <=? rune9) then
      sendValues s strLen it'
    else if pos <? strLen - 1 then
      next ← index s (pos + 1);
      rest ← sendValues s strLen it';
      if (next <=? byteVal "9") && (byteVal "0" <=? next) then
        Some ((next - byteVal "0") :: rest)
      else
        Some (0 :: rest)
    else sendValues s strLen it'
  end.

Definition AddPatternString (p : ValueTrie) (s : string) : option ValueTrie :=
  iter ← sendValues s (len s) (rangeString s);
  let pure :=
    Map (fun rune => if (rune0 <=? rune) && (rune <=? rune9) then -1 else rune) s in
  Some (addRunes p (runes pure) iter).

Fixpoint removeRunes (p : ValueTrie) (r : list rune) : ValueTrie * bool :=
  match r with
  | [] =>
    (mkValueTrie (value p) false (children p),
     bool_decide (size (children p) = 0%nat))
  | rune :: r' =>
    match children p !! rune with
    | Some child =>
      let '(child', empty) := removeRunes child r' in
      let children' :=
        if empty then delete rune (children p)
        else <[rune := child']> (children p) in
      (mkValueTrie (value p) (leaf p) children',
       bool_decide (size children' = 0%nat))
    | None => (p, bool_decide (size (children p) = 0%nat))
    end
  end.

Definition Remove (p : ValueTrie) (s : string) : ValueTrie * bool :=
  if len s =? 0 then (p, bool_decide (size (children p) = 0%nat))
  else removeRunes p (runes s).

Fixpoint includes (p : ValueTrie) (r : list rune) : bool :=
  match r with
  | [] => leaf p
  | rune :: r' =>
    match children p !! rune with
    | Some child => includes child r'
    | None => false
    end
  end.

Definition Contains (p : ValueTrie) (s : string) : bool :=
  if len s =? 0 then false
  else includes p (runes s).

(** ['0' + child.value] converted to a string: the encoding of that code
    point. *)
Fixpoint buildMembers (p : ValueTrie) (prefix : string)
         (includeValues includeZeroes : bool) : list string :=
  (if leaf p then [prefix] else [])
  ++ map_fold (fun rune child rest =>
                 let substr := prefix +:+ EncodeRune rune in
                 let substr :=
                   if includeValues
                      && (negb (value child =? 0) || includeZeroes)
                   then substr +:+ EncodeRune (byteVal "0" + value child)
                   else substr in
                 buildMembers child substr includeValues includeZeroes ++ rest)
              [] (children p).

Definition Members (p : ValueTrie) : list string :=
  merge_sort String.le (buildMembers p EmptyString false false).

Definition PatternMembers (p : ValueTrie) (includeZeroes : bool) : list string :=
  merge_sort String.le (buildMembers p EmptyString true includeZeroes).

Fixpoint Size (p : ValueTrie) : nat :=
  (size (children p)
   + map_fold (fun _ child sz => Size child + sz) 0 (children p))%nat.

(** The node a sequence of runes leads to, whether it is a leaf or not. *)
Fixpoint nodeAt (p : ValueTrie) (r : list rune) : option ValueTrie :=
  match r with
  | [] => Some p
  | rune :: r' =>
    match children p !! rune with
    | Some child => nodeAt child r'
    | None => None
    end
  end.

(** The values [n] receives in a row take from the channel. *)
Fixpoint recvN (n : nat) (iter : list Z) : list Z :=
  match n with
  | O => []
  | S n' => let '(val, iter') := recv iter in val :: recvN n' iter'
  end.

(** The weights met along a path: the value of the node reached by each
    rune of [r] in turn. *)
Fixpoint pathValues (p : ValueTrie) (r : list rune) : option (list Z) :=
  match r with
  | [] => Some []
  | rune :: r' =>
    match children p !! rune with
    | Some child => (fun vs => value child :: vs) <$> pathValues child r'
    | None => None
    end
  end.

(** *** Notions used to state what [AddPatternString] stores *)

(** The test [AddPatternString] makes of a rune, and the string its call
    of [strings.Map] returns. *)
Definition isDigit (r : rune) : bool := (rune0 <=? r) && (r <=? rune9).

Definition dropDigits (s : string) : string :=
  Map (fun rune => if (rune0 <=? rune) && (rune <=? rune9) then -1 else rune) s.

Fixpoint allDigits (s : string) : bool :=
  match s with
  | EmptyString => true
  | String c t => isDigit (byteVal c) && allDigits t
  end.

(** The values the goroutine sends for the whole of [s]. *)
Definition sent (s : string) : option (list Z) :=
  sendValues s (len s) (rangeString s).

(** A pattern written letter by letter: each letter with the digit that
    follows it, if one does. *)
Definition digitChar (d : Z) : ascii := byteOf (byteVal "0" + d).

Fixpoint pattern (items : list (ascii * option Z)) : string :=
  match items with
  | [] => EmptyString
  | (c, w) :: rest =>
    String c (match w with
              | Some d => String (digitChar d) (pattern rest)
              | None => pattern rest
              end)
  end.

(** The letter is one byte of ASCII that is no digit, and the weight is
    one decimal digit. *)
Definition itemOK (it : ascii * option Z) : bool :=
  (byteVal it.1 <? 0x80) && negb (isDigit (byteVal it.1))
  && match it.2 with
     | Some d => (0 <=? d) && (d <=? 9)
     | None => true
     end.

(** The item as [PatternMembers] writes it, and the letter alone. *)
Definition shown (includeZeroes : bool) (it : ascii * option Z)
  : ascii * option Z :=
  (it.1, if negb (default 0 it.2 =? 0) || includeZeroes
         then Some (default 0 it.2) else None).

Definition bare (it : ascii * option Z) : ascii * option Z := (it.1, None).

End valuetrie.

(** ** Inputs of the runs *)

Module samples.
Import trie valuetrie.

(** The byte 0xFF, which is no UTF-8 sequence, and the encoding of
    U+FFFD it is read as. *)
Definition illFormed : string := String "255"%char EmptyString.
Definition replacement : string :=
  String "239"%char (String "191"%char (String "189"%char EmptyString)).

(** The trie of [TestMultiFind]. *)
Definition hyphTrie : Trie unit :=
  AddString (AddString (AddString (AddString NewTrie "hyph") "hen") "hena")
            "henat".

(** The hyphenation trie after the pattern of [TestTrieValues]. *)
Definition hyphenation : ValueTrie :=
  default NewValueTrie (AddPatternString NewValueTrie "hy3phe2n5a4t2io2n").

End samples.

(** * Properties *)

(** ** Strings and their runes *)

Module gostring_props.
Import gostring utf8 goiter.

Lemma len_zero_iff (s : string) : (len s =? 0) = true <-> s = EmptyString.
Proof.
  unfold len. destruct s; simpl; split; intros H; try done; lia.
Qed.

Lemma len_nonzero (s : string) : s <> EmptyString -> (len s =? 0) = false.
Proof.
  intros H. destruct (len s =? 0) eqn:E; [|done].
  apply len_zero_iff in E. done.
Qed.

Lemma runes_empty : runes EmptyString = [].
Proof. reflexivity. Qed.

Lemma runes_nonempty (s : string) : s <> EmptyString -> runes s <> [].
Proof.
  destruct s as [|c t]; [done|]. intros _.
  unfold runes, rangeString. cbn [rangeFrom].
  by destruct (DecodeRuneInString (String c t)).
Qed.

Lemma append_cons (x : ascii) (a b : string) :
  String x a +:+ b = String x (a +:+ b).
Proof. reflexivity. Qed.

Lemma append_assoc (a b c : string) : (a +:+ b) +:+ c = a +:+ (b +:+ c).
Proof.
  induction a as [|x a IH]; [done|]. rewrite !append_cons. by rewrite IH.
Qed.

Lemma append_empty_r (a : string) : a +:+ EmptyString = a.
Proof.
  induction a as [|x a IH]; [done|]. rewrite append_cons. by rewrite IH.
Qed.

Lemma encodeRunes_cons (r : rune) (rs : list rune) :
  encodeRunes (r :: rs) = EncodeRune r +:+ encodeRunes rs.
Proof. reflexivity. Qed.

(** Two well-formed strings with the same runes are the same string. *)
Lemma wellFormed_runes_inj (s t : string) :
  wellFormed s -> wellFormed t -> runes s = runes t -> s = t.
Proof. unfold wellFormed. intros Hs Ht E. rewrite <- Hs, <- Ht. by rewrite E. Qed.

End gostring_props.

(** ** UTF-8: decoding an encoding, and what decoding returns *)

Module utf8_props.
Import gostring utf8 goiter gostring_props.

(** *** Bytes, and bit operations as arithmetic *)

Lemma byteVal_bounds (c : ascii) : 0 <= byteVal c < 256.
Proof.
  unfold byteVal. pose proof (N_ascii_bounded c). lia.
Qed.

Lemma byteVal_byteOf (z : Z) : 0 <= z < 256 -> byteVal (byteOf z) = z.
Proof.
  intros H. unfold byteVal, byteOf. rewrite Z.mod_small by done.
  rewrite N_ascii_embedding by lia. lia.
Qed.

Lemma land_disjoint (a b k : Z) :
  0 <= k -> 0 <= b < 2 ^ k -> a mod 2 ^ k = 0 -> Z.land a b = 0.
Proof.
  intros Hk Hb Ha. apply Z.bits_inj'. intros n Hn.
  rewrite Z.land_spec, Z.bits_0.
  destruct (Z.lt_ge_cases n k) as [Hlt|Hge].
  - rewrite <- (Z.mod_pow2_bits_low a k n) by lia. by rewrite Ha, Z.bits_0.
  - rewrite <- (Z.mod_small b (2 ^ k)) by lia.
    rewrite Z.mod_pow2_bits_high by lia. apply andb_false_r.
Qed.

Lemma lor_add (a b k : Z) :
  0 <= k -> 0 <= b < 2 ^ k -> a mod 2 ^ k = 0 -> Z.lor a b = a + b.
Proof.
  intros Hk Hb Ha. pose proof (land_disjoint a b k Hk Hb Ha) as H0.
  rewrite <- Z.lxor_lor by done. symmetry. by apply Z.add_nocarry_lxor.
Qed.

Lemma land_maskx (x : Z) : Z.land x maskx = x mod 64.
Proof. change maskx with (Z.ones 6). by rewrite Z.land_ones. Qed.

Lemma land_mask2 (x : Z) : Z.land x mask2 = x mod 32.
Proof. change mask2 with (Z.ones 5). by rewrite Z.land_ones. Qed.

Lemma land_mask3 (x : Z) : Z.land x mask3 = x mod 16.
Proof. change mask3 with (Z.ones 4). by rewrite Z.land_ones. Qed.

Lemma land_mask4 (x : Z) : Z.land x mask4 = x mod 8.
Proof. change mask4 with (Z.ones 3). by rewrite Z.land_ones. Qed.

Lemma shiftr_div (x k : Z) : 0 <= k -> Z.shiftr x k = x / 2 ^ k.
Proof. apply Z.shiftr_div_pow2. Qed.

Lemma shiftl_mul (x k : Z) : 0 <= k -> Z.shiftl x k = x * 2 ^ k.
Proof. apply Z.shiftl_mul_pow2. Qed.

Ltac divmod := Z.div_mod_to_equations; lia.

(** *** The bytes of an encoding *)

Lemma cont_byte (x : Z) :
  byteVal (byteOf (Z.lor tx (Z.land x maskx))) = 0x80 + x mod 64.
Proof.
  rewrite land_maskx. rewrite (lor_add tx _ 7); [|lia| |done].
  - apply byteVal_byteOf. unfold tx. divmod.
  - change (2 ^ 7) with 128. divmod.
Qed.

Lemma lead2 (r : Z) :
  0 <= r <= 0x7FF -> byteVal (byteOf (Z.lor t2 (Z.shiftr r 6))) = 0xC0 + r / 64.
Proof.
  intros H. rewrite shiftr_div by lia. change (2 ^ 6) with 64.
  rewrite (lor_add t2 _ 6); [|lia| |done].
  - apply byteVal_byteOf. unfold t2. divmod.
  - change (2 ^ 6) with 64. divmod.
Qed.

Lemma lead3 (r : Z) :
  0 <= r <= 0xFFFF -> byteVal (byteOf (Z.lor t3 (Z.shiftr r 12))) = 0xE0 + r / 4096.
Proof.
  intros H. rewrite shiftr_div by lia. change (2 ^ 12) with 4096.
  rewrite (lor_add t3 _ 5); [|lia| |done].
  - apply byteVal_byteOf. unfold t3. divmod.
  - change (2 ^ 5) with 32. divmod.
Qed.

Lemma lead4 (r : Z) :
  0 <= r <= 0x10FFFF ->
  byteVal (byteOf (Z.lor t4 (Z.shiftr r 18))) = 0xF0 + r / 262144.
Proof.
  intros H. rewrite shiftr_div by lia. change (2 ^ 18) with 262144.
  rewrite (lor_add t4 _ 4); [|lia| |done].
  - apply byteVal_byteOf. unfold t4. divmod.
  - change (2 ^ 4) with 16. divmod.
Qed.

(** *** The value of a decoded sequence *)

Lemma scalar_RuneError : scalar RuneError.
Proof. unfold scalar, RuneError, MaxRune, surrogateMin, surrogateMax. lia. Qed.

Lemma dec2 (a b : Z) :
  Z.lor (Z.shiftl (Z.land a mask2) 6) (Z.land b maskx)
  = a mod 32 * 64 + b mod 64.
Proof.
  rewrite land_mask2, land_maskx, shiftl_mul by lia. change (2 ^ 6) with 64.
  rewrite (lor_add _ _ 6); [| lia | | ]; change (2 ^ 6) with 64; divmod.
Qed.

Lemma dec3 (a b c : Z) :
  Z.lor (Z.lor (Z.shiftl (Z.land a mask3) 12) (Z.shiftl (Z.land b maskx) 6))
        (Z.land c maskx)
  = a mod 16 * 4096 + b mod 64 * 64 + c mod 64.
Proof.
  rewrite land_mask3, !land_maskx, !shiftl_mul by lia.
  change (2 ^ 6) with 64. change (2 ^ 12) with 4096.
  rewrite (lor_add _ (b mod 64 * 64) 12);
    [| lia | change (2 ^ 12) with 4096; divmod
     | change (2 ^ 12) with 4096; divmod ].
  rewrite (lor_add _ _ 6); [| lia | | ]; change (2 ^ 6) with 64; divmod.
Qed.

Lemma dec4 (a b c d : Z) :
  Z.lor (Z.lor (Z.lor (Z.shiftl (Z.land a mask4) 18)
                      (Z.shiftl (Z.land b maskx) 12))
               (Z.shiftl (Z.land c maskx) 6))
        (Z.land d maskx)
  = a mod 8 * 262144 + b mod 64 * 4096 + c mod 64 * 64 + d mod 64.
Proof.
  rewrite land_mask4, !land_maskx, !shiftl_mul by lia.
  change (2 ^ 6) with 64. change (2 ^ 12) with 4096.
  change (2 ^ 18) with 262144.
  rewrite (lor_add _ (b mod 64 * 4096) 18);
    [| lia | change (2 ^ 18) with 262144; divmod
     | change (2 ^ 18) with 262144; divmod ].
  rewrite (lor_add _ (c mod 64 * 64) 12);
    [| lia | change (2 ^ 12) with 4096; divmod
     | change (2 ^ 12) with 4096; divmod ].
  rewrite (lor_add _ _ 6); [| lia | | ]; change (2 ^ 6) with 64; divmod.
Qed.

Lemma orb_range_false (x lo hi : Z) :
  (x <? lo) || (hi <? x) = false -> lo <= x <= hi.
Proof. intros [?%Z.ltb_ge ?%Z.ltb_ge]%orb_false_elim. lia. Qed.

(** *** The first byte *)

(** Case analysis on the comparisons of the goal and of the hypotheses,
    each case with the inequality it stands for. *)
Ltac compared :=
  repeat case_match;
  repeat match goal with
         | H : (_ <? _) = true |- _ => apply Z.ltb_lt in H
         | H : (_ <? _) = false |- _ => apply Z.ltb_ge in H
         | H : (_ =? _) = true |- _ => apply Z.eqb_eq in H
         | H : (_ =? _) = false |- _ => apply Z.eqb_neq in H
         end.

Lemma first_ascii (b : Z) : 0 <= b < 0x80 -> first b = ascii1.
Proof. intros H. unfold first. compared; first [done|lia]. Qed.

Lemma first_2 (b : Z) : 0xC2 <= b <= 0xDF -> first b = multi 2 locb hicb.
Proof. intros H. unfold first. compared; first [done|lia]. Qed.

Lemma first_3 (b : Z) :
  0xE0 <= b <= 0xEF ->
  first b = multi 3 (if b =? 0xE0 then 0xA0 else locb)
                    (if b =? 0xED then 0x9F else hicb).
Proof. intros H. unfold first. compared; first [done|lia]. Qed.

Lemma first_4 (b : Z) :
  0xF0 <= b <= 0xF4 ->
  first b = multi 4 (if b =? 0xF0 then 0x90 else locb)
                    (if b =? 0xF4 then 0x8F else hicb).
Proof. intros H. unfold first. compared; first [done|lia]. Qed.

(** *** Decoding *)

(** Decoding the encoding of a scalar value gives the value back, with the
    number of bytes of the encoding. *)
Lemma Decode_Encode (r : rune) (rest : string) :
  scalar r ->
  DecodeRuneInString (EncodeRune r +:+ rest) = (r, RuneLen r)
  /\ len (EncodeRune r) = RuneLen r.
Proof.
  intros [Hr Hs]. unfold MaxRune, surrogateMin, surrogateMax in *.
  unfold EncodeRune, RuneLen, MaxRune, surrogateMin, surrogateMax.
  destruct (Z.ltb_spec r 0); [lia|].
  destruct (Z.leb_spec 0 r); [|lia]. simpl andb.
  destruct (Z.leb_spec r 0x7F).
  { split; [|done]. rewrite append_cons. cbn [DecodeRuneInString].
    rewrite byteVal_byteOf by lia. by rewrite first_ascii by lia. }
  destruct (Z.leb_spec r 0x7FF).
  { split; [|done]. rewrite !append_cons. cbn [DecodeRuneInString].
    rewrite lead2, cont_byte by lia.
    rewrite first_2 by divmod.
    unfold locb, hicb.
    destruct (Z.ltb_spec (128 + r mod 64) 128); [divmod|].
    destruct (Z.ltb_spec 191 (128 + r mod 64)); [divmod|].
    simpl. f_equal. rewrite dec2. divmod. }
  destruct (Z.ltb_spec 0x10FFFF r); [lia|].
  assert (((0xD800 <=? r) && (r <=? 0xDFFF)) = false) as ->.
  { destruct (Z.leb_spec 0xD800 r), (Z.leb_spec r 0xDFFF); try done. lia. }
  simpl orb. cbn match.
  destruct (Z.leb_spec r 0xFFFF).
  { split; [|done]. unfold encode3. rewrite !append_cons.
    cbn [DecodeRuneInString].
    rewrite lead3, !cont_byte by lia. rewrite shiftr_div by lia.
    change (2 ^ 6) with 64.
    rewrite first_3 by divmod. unfold locb, hicb.
    assert (Hlo : ((128 + r / 64 mod 64
                     <? (if 224 + r / 4096 =? 224 then 160 else 128))
                    || ((if 224 + r / 4096 =? 237 then 159 else 191)
                          <? 128 + r / 64 mod 64)) = false).
    { destruct (Z.eqb_spec (224 + r / 4096) 224),
               (Z.eqb_spec (224 + r / 4096) 237);
        apply orb_false_intro; apply Z.ltb_ge; divmod. }
    rewrite Hlo. cbn match.
    destruct (Z.ltb_spec (128 + r mod 64) 128); [divmod|].
    destruct (Z.ltb_spec 191 (128 + r mod 64)); [divmod|].
    simpl. f_equal. rewrite dec3. divmod. }
  destruct (Z.leb_spec r 0x10FFFF); [|lia].
  split; [|done]. rewrite !append_cons. cbn [DecodeRuneInString].
  rewrite lead4, !cont_byte by lia. rewrite !shiftr_div by lia.
  change (2 ^ 6) with 64. change (2 ^ 12) with 4096.
  rewrite first_4 by divmod. unfold locb, hicb.
  assert (Hlo : ((128 + r / 4096 mod 64
                   <? (if 240 + r / 262144 =? 240 then 144 else 128))
                  || ((if 240 + r / 262144 =? 244 then 143 else 191)
                        <? 128 + r / 4096 mod 64)) = false).
  { destruct (Z.eqb_spec (240 + r / 262144) 240),
             (Z.eqb_spec (240 + r / 262144) 244);
      apply orb_false_intro; apply Z.ltb_ge; divmod. }
  rewrite Hlo. cbn match.
  destruct (Z.ltb_spec (128 + r / 64 mod 64) 128); [divmod|].
  destruct (Z.ltb_spec 191 (128 + r / 64 mod 64)); [divmod|].
  destruct (Z.ltb_spec (128 + r mod 64) 128); [divmod|].
  destruct (Z.ltb_spec 191 (128 + r mod 64)); [divmod|].
  simpl. f_equal. rewrite dec4. divmod.
Qed.

Lemma first_ascii1_inv (s0 : Z) : first s0 = ascii1 -> s0 < 0x80.
Proof. intros H. unfold first in H. compared; first [done|lia]. Qed.

Lemma first_multi_inv (s0 sz lo hi : Z) :
  first s0 = multi sz lo hi ->
  (sz = 2 /\ 0xC2 <= s0 < 0xE0 /\ lo = 0x80 /\ hi = 0xBF)
  \/ (sz = 3 /\ s0 = 0xE0 /\ lo = 0xA0 /\ hi = 0xBF)
  \/ (sz = 3 /\ 0xE0 < s0 < 0xF0 /\ s0 <> 0xED /\ lo = 0x80 /\ hi = 0xBF)
  \/ (sz = 3 /\ s0 = 0xED /\ lo = 0x80 /\ hi = 0x9F)
  \/ (sz = 4 /\ s0 = 0xF0 /\ lo = 0x90 /\ hi = 0xBF)
  \/ (sz = 4 /\ 0xF0 < s0 < 0xF4 /\ lo = 0x80 /\ hi = 0xBF)
  \/ (sz = 4 /\ s0 = 0xF4 /\ lo = 0x80 /\ hi = 0x8F).
Proof.
  intros H. unfold first, locb, hicb in H.
  compared; try discriminate H; injection H as <- <- <-; lia.
Qed.

Ltac scalar_arith :=
  unfold scalar, MaxRune, surrogateMin, surrogateMax; divmod.

(** What [DecodeRuneInString] returns is a scalar value. *)
Lemma Decode_scalar (s : string) : scalar (DecodeRuneInString s).1.
Proof.
  destruct s as [|c0 r0]; [apply scalar_RuneError|].
  cbn [DecodeRuneInString]. pose proof (byteVal_bounds c0) as B0.
  destruct (first (byteVal c0)) as [| |sz lo hi] eqn:Hf.
  { apply first_ascii1_inv in Hf. simpl. scalar_arith. }
  { apply scalar_RuneError. }
  apply first_multi_inv in Hf.
  destruct r0 as [|c1 r1]; [apply scalar_RuneError|].
  pose proof (byteVal_bounds c1) as B1.
  destruct ((byteVal c1 <? lo) || (hi <? byteVal c1)) eqn:E1;
    [apply scalar_RuneError|].
  apply orb_range_false in E1.
  destruct (Z.leb_spec sz 2).
  { simpl. rewrite dec2. scalar_arith. }
  destruct r1 as [|c2 r2]; [apply scalar_RuneError|].
  pose proof (byteVal_bounds c2) as B2. unfold locb, hicb.
  destruct ((byteVal c2 <? 128) || (191 <? byteVal c2)) eqn:E2;
    [apply scalar_RuneError|].
  apply orb_range_false in E2.
  destruct (Z.leb_spec sz 3).
  { simpl. rewrite dec3. scalar_arith. }
  destruct r2 as [|c3 r3]; [apply scalar_RuneError|].
  pose proof (byteVal_bounds c3) as B3.
  destruct ((byteVal c3 <? 128) || (191 <? byteVal c3)) eqn:E3;
    [apply scalar_RuneError|].
  apply orb_range_false in E3.
  simpl. rewrite dec4. scalar_arith.
Qed.

(** *** Iterating over an encoding *)

Lemma rangeFrom_skip (a rest : string) (pos : Z) :
  rangeFrom (a +:+ rest) pos (String.length a) = rangeFrom rest (pos + len a) 0.
Proof.
  revert pos. induction a as [|c a IH]; intros pos.
  - unfold len. simpl. f_equal. lia.
  - rewrite append_cons. cbn [rangeFrom String.length]. rewrite IH.
    f_equal. unfold len. cbn [String.length]. lia.
Qed.

Lemma rangeFrom_Encode (r : rune) (rest : string) (pos : Z) :
  scalar r ->
  rangeFrom (EncodeRune r +:+ rest) pos 0
  = (pos, r) :: rangeFrom rest (pos + RuneLen r) 0.
Proof.
  intros Hr. destruct (Decode_Encode r rest Hr) as [Hd Hl].
  destruct (EncodeRune r) as [|c a] eqn:E.
  { revert Hl. unfold RuneLen, len. cbn [String.length].
    repeat case_match; lia. }
  rewrite append_cons in *. cbn [rangeFrom]. rewrite Hd. f_equal.
  rewrite <- Hl. unfold len. cbn [String.length].
  replace (Z.to_nat (Z.of_nat (S (String.length a))) - 1)%nat
    with (String.length a) by lia.
  rewrite rangeFrom_skip. f_equal. unfold len. lia.
Qed.

Lemma rangeFrom_encodeRunes (cps : list rune) (pos : Z) :
  Forall scalar cps -> (rangeFrom (encodeRunes cps) pos 0).*2 = cps.
Proof.
  intros H. revert pos. induction H as [|r cps Hr _ IH]; intros pos; [done|].
  rewrite encodeRunes_cons, rangeFrom_Encode by done. simpl. by rewrite IH.
Qed.

(** Decoding an encoding gives the code points back. *)
Lemma runes_encodeRunes (cps : list rune) :
  Forall scalar cps -> runes (encodeRunes cps) = cps.
Proof. apply rangeFrom_encodeRunes. Qed.

Lemma rangeFrom_scalar (s : string) (pos : Z) (skip : nat) :
  Forall scalar (rangeFrom s pos skip).*2.
Proof.
  revert pos skip. induction s as [|c t IH]; intros pos skip; [constructor|].
  cbn [rangeFrom]. destruct skip as [|k]; [|apply IH].
  pose proof (Decode_scalar (String c t)) as Hs.
  destruct (DecodeRuneInString (String c t)) as [r n].
  constructor; [done|apply IH].
Qed.

Lemma runes_scalar (s : string) : Forall scalar (runes s).
Proof. apply rangeFrom_scalar. Qed.

(** The well-formed strings are the encodings of the sequences of scalar
    values. *)
Lemma wellFormed_iff (s : string) :
  wellFormed s <-> exists cps, Forall scalar cps /\ s = encodeRunes cps.
Proof.
  split.
  - intros H. exists (runes s). split; [apply runes_scalar|done].
  - intros (cps & Hc & ->). unfold wellFormed. by rewrite runes_encodeRunes.
Qed.

(** *** Positions *)

Lemma len_append (a b : string) : len (a +:+ b) = len a + len b.
Proof.
  unfold len. induction a as [|c a IH]; [done|].
  rewrite append_cons. cbn [String.length]. lia.
Qed.

Lemma len_nonneg (s : string) : 0 <= len s.
Proof. unfold len. lia. Qed.

Lemma RuneLen_scalar (r : rune) : scalar r -> 1 <= RuneLen r <= 4.
Proof.
  intros [Hr Hs]. unfold MaxRune, surrogateMin, surrogateMax in *.
  unfold RuneLen, MaxRune, surrogateMin, surrogateMax.
  repeat case_match; lia.
Qed.

Lemma rangeFrom_pos (s : string) (pos : Z) (skip : nat) (q : Z) (r : rune) :
  (q, r) ∈ rangeFrom s pos skip -> pos <= q < pos + len s.
Proof.
  unfold len. revert pos skip.
  induction s as [|c t IH]; intros pos skip; cbn [rangeFrom String.length].
  - by intros ?%elem_of_nil.
  - destruct skip as [|k].
    + destruct (DecodeRuneInString (String c t)) as [r0 n].
      intros [[= -> ->]|H]%elem_of_cons; [lia|]. apply IH in H. lia.
    + intros H. apply IH in H. lia.
Qed.

(** In an encoding, every rune lies within the string with all its
    bytes. *)
Lemma rangeFrom_encodeRunes_pos (cps : list rune) (pos q : Z) (r : rune) :
  Forall scalar cps ->
  (q, r) ∈ rangeFrom (encodeRunes cps) pos 0 ->
  pos <= q /\ q + RuneLen r <= pos + len (encodeRunes cps).
Proof.
  intros H. revert pos. induction H as [|r0 cps Hr _ IH]; intros pos.
  - by intros ?%elem_of_nil.
  - rewrite encodeRunes_cons, rangeFrom_Encode, len_append by done.
    destruct (Decode_Encode r0 EmptyString Hr) as [_ ->].
    pose proof (RuneLen_scalar r0 Hr). pose proof (len_nonneg (encodeRunes cps)).
    intros [[= -> ->]|Hin]%elem_of_cons; [lia|].
    apply IH in Hin. lia.
Qed.

Lemma rangeString_wellFormed_pos (s : string) (q : Z) (r : rune) :
  wellFormed s -> (q, r) ∈ rangeString s -> 0 <= q /\ q + RuneLen r <= len s.
Proof.
  intros (cps & Hc & ->)%wellFormed_iff Hin.
  by apply rangeFrom_encodeRunes_pos in Hin.
Qed.

Lemma slice_is_Some (s : string) (lo hi : Z) :
  0 <= lo <= hi -> hi <= len s -> is_Some (slice s lo hi).
Proof.
  intros H1 H2. unfold slice.
  destruct (lo <? 0) eqn:E1; [lia|]. destruct (hi <? lo) eqn:E2; [lia|].
  destruct (len s <? hi) eqn:E3; [lia|]. by eexists.
Qed.

(** *** Concatenation *)

Lemma encodeRunes_app (a b : list rune) :
  encodeRunes (a ++ b) = encodeRunes a +:+ encodeRunes b.
Proof.
  induction a as [|x a IH]; [done|].
  rewrite <- app_comm_cons, !encodeRunes_cons, IH. by rewrite append_assoc.
Qed.

Lemma substring_prefix (a b : string) :
  String.substring 0 (String.length a) (a +:+ b) = a.
Proof.
  induction a as [|c a IH].
  - by destruct b.
  - rewrite append_cons. cbn [String.length String.substring]. by rewrite IH.
Qed.

Lemma slice_prefix (a b : string) : slice (a +:+ b) 0 (len a) = Some a.
Proof.
  unfold slice. rewrite len_append.
  pose proof (len_nonneg a). pose proof (len_nonneg b).
  destruct (0 <? 0) eqn:E1; [lia|]. destruct (len a <? 0) eqn:E2; [lia|].
  destruct (len a + len b <? len a) eqn:E3; [lia|]. simpl.
  unfold len. rewrite Z.sub_0_r, Nat2Z.id. by rewrite substring_prefix.
Qed.

Lemma len_encodeRunes_snoc seen (x : rune) :
  scalar x ->
  len (encodeRunes (seen ++ [x])) = len (encodeRunes seen) + RuneLen x.
Proof.
  intros Hx. rewrite encodeRunes_app, len_append. f_equal.
  rewrite encodeRunes_cons. change (encodeRunes []) with EmptyString.
  rewrite append_empty_r. by destruct (Decode_Encode x EmptyString Hx).
Qed.

Lemma rangeFrom_encodeRunes_app (cps : list rune) (rest : string) (pos : Z) :
  Forall scalar cps ->
  (rangeFrom (encodeRunes cps +:+ rest) pos 0).*2
  = cps ++ (rangeFrom rest (pos + len (encodeRunes cps)) 0).*2.
Proof.
  intros H. revert pos. induction H as [|x cps Hx _ IH]; intros pos.
  - change (encodeRunes []) with EmptyString.
    change (EmptyString +:+ rest) with rest.
    change (len EmptyString) with 0. by rewrite Z.add_0_r.
  - rewrite encodeRunes_cons, append_assoc, rangeFrom_Encode by done.
    simpl. rewrite IH, len_append.
    destruct (Decode_Encode x EmptyString Hx) as [_ ->].
    by rewrite Z.add_assoc.
Qed.

(** The runes of a string do not depend on the position it starts at. *)
Lemma rangeFrom_runes_pos (b : string) (z1 z2 : Z) (skip : nat) :
  (rangeFrom b z1 skip).*2 = (rangeFrom b z2 skip).*2.
Proof.
  revert z1 z2 skip. induction b as [|c b IH]; intros z1 z2 skip; [done|].
  cbn [rangeFrom]. destruct skip; [|apply IH].
  destruct (DecodeRuneInString (String c b)). simpl. f_equal. apply IH.
Qed.

Lemma runes_append_wellFormed (a b : string) :
  wellFormed a -> runes (a +:+ b) = runes a ++ runes b.
Proof.
  intros Ha. pose proof (runes_scalar a) as Hs. unfold wellFormed in Ha.
  rewrite <- Ha at 1. unfold runes at 1, rangeString.
  rewrite rangeFrom_encodeRunes_app by done. f_equal.
  apply rangeFrom_runes_pos.
Qed.

Lemma encodeRunes_nonempty (cps : list rune) :
  Forall scalar cps -> cps <> [] -> encodeRunes cps <> EmptyString.
Proof.
  intros H Hne E. apply (f_equal runes) in E.
  rewrite runes_encodeRunes in E by done. done.
Qed.

End utf8_props.

(** ** The trie *)

Module trie_props.
Import gostring utf8 goiter trie samples gostring_props utf8_props.

Section props.
Context {V : Type}.
Implicit Types (p : Trie V) (r t : list rune) (k : Trie V -> Trie V).

(** *** Adding runes *)

Lemma keeps_id : keeps (fun lf : Trie V => lf).
Proof. by intros x. Qed.

Lemma keeps_set_value (v : option V) :
  keeps (fun lf : Trie V => mkTrie (leaf lf) v (children lf)).
Proof. by intros x. Qed.

Lemma includes_addRunes k p r :
  keeps k -> includes (addRunes k p r) r <> None.
Proof.
  intros Hk. revert p. induction r as [|r0 r IH]; intros p; simpl.
  - destruct (Hk (mkTrie true (value p) (children p))) as [-> _]. done.
  - rewrite lookup_insert_eq. apply IH.
Qed.

Lemma includes_keeps k p t :
  keeps k -> t <> [] -> includes (k p) t = includes p t.
Proof.
  intros Hk Ht. destruct t as [|t0 t]; [done|]. simpl.
  by destruct (Hk p) as [_ ->].
Qed.

(** Adding a sequence of runes keeps every leaf reachable. *)
Lemma includes_addRunes_mono k p r t :
  keeps k -> includes p t <> None -> includes (addRunes k p r) t <> None.
Proof.
  intros Hk. revert p t. induction r as [|r0 r IH]; intros p t Ht.
  - simpl. destruct t as [|t0 t].
    + simpl. by destruct (Hk (mkTrie true (value p) (children p))) as [-> _].
    + by rewrite includes_keeps.
  - destruct t as [|t0 t]; simpl in *.
    + by destruct (leaf p).
    + destruct (decide (r0 = t0)) as [->|Hne].
      * rewrite lookup_insert_eq.
        destruct (children p !! t0) as [c|]; [|done]. by apply IH.
      * by rewrite lookup_insert_ne.
Qed.

(** Adding a sequence of runes leaves the value of every other leaf as
    it was, and that of the leaf it ends at too when the caller does not
    assign it. *)
Lemma value_includes_addRunes k p r t :
  keeps k -> (t = r -> forall x, value (k x) = value x) ->
  includes p t <> None ->
  value <$> includes (addRunes k p r) t = value <$> includes p t.
Proof.
  intros Hk. revert p t. induction r as [|r0 r IH]; intros p t Hv Ht.
  - simpl. destruct t as [|t0 t].
    + simpl in *.
      destruct (Hk (mkTrie true (value p) (children p))) as [-> _].
      destruct (leaf p); [|done]. simpl. by rewrite Hv.
    + by rewrite includes_keeps.
  - destruct t as [|t0 t]; simpl in *.
    + by destruct (leaf p).
    + destruct (decide (r0 = t0)) as [->|Hne].
      * rewrite lookup_insert_eq.
        destruct (children p !! t0) as [c|]; [|done].
        apply IH; [|done]. intros ->. by apply Hv.
      * by rewrite lookup_insert_ne.
Qed.

(** *** The loops over the children *)

Implicit Types (c : Trie V) (m : gmap rune (Trie V)).

(** A loop that appends what each entry contributes is a bind over the
    list of entries. *)
Lemma map_fold_app_bind {B} (g : rune -> Trie V -> list B) m :
  map_fold (fun i c rest => g i c ++ rest) [] m
  = map_to_list m ≫= (fun ic => g ic.1 ic.2).
Proof.
  rewrite map_fold_foldr.
  induction (map_to_list m) as [|[i c] l IH]; [done|].
  simpl. by rewrite IH.
Qed.

Lemma map_fold_add_sum (g : Trie V -> nat) m :
  map_fold (fun _ c sz => (g c + sz)%nat) 0%nat m
  = sum_list_with (fun ic => g ic.2) (map_to_list m).
Proof.
  rewrite map_fold_foldr.
  induction (map_to_list m) as [|[i c] l IH]; [done|].
  simpl. by rewrite IH.
Qed.

Lemma Size_unfold p :
  Size p = (size (children p)
            + sum_list_with (fun ic => Size ic.2) (map_to_list (children p)))%nat.
Proof. destruct p as [l v m]. simpl. by rewrite <- map_fold_add_sum. Qed.

Lemma nodePaths_unfold p :
  nodePaths p
  = map_to_list (children p) ≫=
      (fun ic => [ic.1] :: (cons ic.1 <$> nodePaths ic.2)).
Proof.
  destruct p as [l v m]. simpl.
  by rewrite <- (map_fold_app_bind (fun i c => [i] :: (cons i <$> nodePaths c))).
Qed.

Lemma buildMembers_unfold p prefix :
  buildMembers p prefix
  = (if leaf p then [prefix] else [])
    ++ (map_to_list (children p) ≫=
          (fun ic => buildMembers ic.2 (prefix +:+ EncodeRune ic.1))).
Proof.
  destruct p as [l v m]. simpl.
  by rewrite <- (map_fold_app_bind
                   (fun i c => buildMembers c (prefix +:+ EncodeRune i))).
Qed.

(** *** Induction on the children, and the count of the nodes *)

Lemma Size_child p i c : children p !! i = Some c -> (Size c < Size p)%nat.
Proof.
  intros H. rewrite (Size_unfold p).
  apply elem_of_map_to_list in H.
  pose proof (sum_list_with_in _ (fun ic : rune * Trie V => Size ic.2) _ H) as Hle.
  simpl in Hle.
  assert (size (children p) <> 0%nat); [|lia].
  intros E. apply map_size_empty_iff in E. rewrite E in H.
  by rewrite map_to_list_empty in H; apply elem_of_nil in H.
Qed.

Lemma Trie_child_ind (P : Trie V -> Prop) :
  (forall p, (forall i c, children p !! i = Some c -> P c) -> P p) ->
  forall p, P p.
Proof.
  intros H p. remember (Size p) as n eqn:E. revert p E.
  induction n as [n IH] using lt_wf_ind. intros p ->.
  apply H. intros i c Hc. eapply IH; [|done]. by eapply Size_child.
Qed.

Lemma nodeAt_cons p i c q :
  children p !! i = Some c -> nodeAt p (i :: q) = nodeAt c q.
Proof. intros H. simpl. by rewrite H. Qed.

Lemma elem_of_nodePaths p path :
  path ∈ nodePaths p <-> path <> [] /\ is_Some (nodeAt p path).
Proof.
  revert path. induction p as [p IH] using Trie_child_ind. intros path.
  rewrite nodePaths_unfold, list_elem_of_bind. split.
  - intros ([i c] & Hin & Hic). apply elem_of_map_to_list in Hic. simpl in *.
    apply elem_of_cons in Hin as [->|Hin].
    + split; [done|]. simpl. rewrite Hic. by eexists.
    + apply list_elem_of_fmap in Hin as (q & -> & Hq).
      apply (IH _ _ Hic) in Hq as [_ Hq].
      split; [done|]. by rewrite (nodeAt_cons _ _ _ _ Hic).
  - intros [Hne Hs]. destruct path as [|i q]; [done|].
    simpl in Hs. destruct (children p !! i) as [c|] eqn:Hic; [|by destruct Hs].
    exists (i, c). split; [|by apply elem_of_map_to_list].
    simpl. destruct q as [|j q]; [left|right].
    apply list_elem_of_fmap. exists (j :: q). split; [done|].
    by apply (IH _ _ Hic).
Qed.

Lemma NoDup_nodePaths p : NoDup (nodePaths p).
Proof.
  induction p as [p IH] using Trie_child_ind.
  rewrite nodePaths_unfold. apply NoDup_bind.
  - intros [i1 c1] [i2 c2] y H1 H2 Hy1 Hy2. simpl in *.
    assert (i1 = i2) as ->.
    { apply elem_of_cons in Hy1 as [->|Hy1], Hy2 as [Hy2|Hy2].
      - by simplify_eq.
      - apply list_elem_of_fmap in Hy2 as (? & ? & _). by simplify_eq.
      - apply list_elem_of_fmap in Hy1 as (? & -> & _). by simplify_eq.
      - apply list_elem_of_fmap in Hy1 as (? & -> & _).
        apply list_elem_of_fmap in Hy2 as (? & ? & _). by simplify_eq. }
    apply elem_of_map_to_list in H1, H2. by simplify_eq.
  - intros [i c] Hic%elem_of_map_to_list. simpl.
    apply NoDup_cons. split.
    + intros (q & ? & Hq)%list_elem_of_fmap. simplify_eq.
      by apply elem_of_nodePaths in Hq as [? _].
    + apply NoDup_fmap_2; [|by eapply IH]. by intros ?? [=].
  - apply NoDup_map_to_list.
Qed.

Lemma Size_nodePaths p : Size p = length (nodePaths p).
Proof.
  induction p as [p IH] using Trie_child_ind.
  rewrite Size_unfold, nodePaths_unfold, <- length_map_to_list.
  assert (Hall : forall ic, ic ∈ map_to_list (children p) ->
                            Size ic.2 = length (nodePaths ic.2)).
  { intros [i c] Hic%elem_of_map_to_list. by eapply IH. }
  induction (map_to_list (children p)) as [|[i c] l IHl]; [done|].
  rewrite bind_cons, length_app. simpl. rewrite length_fmap.
  pose proof (Hall (i, c) (list_elem_of_here _ _)) as Hc. simpl in Hc.
  specialize (IHl (fun ic H => Hall ic (list_elem_of_further _ _ _ H))). lia.
Qed.

(** *** The size after an addition *)

Lemma keeps_children k x : keeps k -> children (k x) = children x.
Proof. intros Hk. apply Hk. Qed.

Lemma Size_children p q : children p = children q -> Size p = Size q.
Proof. intros E. by rewrite !Size_unfold, E. Qed.

Lemma Size_insert_None l v m i c :
  m !! i = None ->
  Size (mkTrie l v (<[i:=c]> m)) = (Size (mkTrie l v m) + 1 + Size c)%nat.
Proof.
  intros H. simpl. rewrite map_size_insert_None by done.
  rewrite map_fold_insert_L; [lia| |done]. intros. lia.
Qed.

Lemma Size_insert_Some l v m i c c' :
  m !! i = Some c ->
  (Size (mkTrie l v (<[i:=c']> m)) + Size c
   = Size (mkTrie l v m) + Size c')%nat.
Proof.
  intros H.
  rewrite <- (insert_delete_eq m), (Size_insert_None _ _ _ _ c')
    by apply lookup_delete_eq.
  rewrite <- (insert_delete_id m i c) at 2 by done.
  rewrite (Size_insert_None _ _ _ _ c) by apply lookup_delete_eq. lia.
Qed.

Lemma matched_children p q r :
  children p = children q -> matched p r = matched q r.
Proof. intros E. destruct r; simpl; by rewrite ?E. Qed.

Lemma matched_NewTrie r : matched (@NewTrie V) r = 0%nat.
Proof. by destruct r. Qed.

(** Adding [r] creates one node for each rune of [r] beyond those for
    which nodes exist. *)
Lemma Size_addRunes k p r :
  keeps k ->
  (Size (addRunes k p r) + matched p r = Size p + length r)%nat.
Proof.
  intros Hk. revert p. induction r as [|r0 r IH]; intros p.
  - simpl addRunes.
    rewrite (Size_children (k _) p); [simpl; lia|]. by rewrite keeps_children.
  - destruct p as [l v m]. cbn [addRunes matched children leaf value length].
    destruct (m !! r0) as [c|] eqn:Hc.
    + pose proof (Size_insert_Some l v m r0 c (addRunes k c r) Hc).
      specialize (IH c). lia.
    + rewrite (Size_insert_None _ _ _ _ _ Hc).
      specialize (IH NewTrie). rewrite matched_NewTrie in IH.
      change (Size (@NewTrie V)) with 0%nat in IH. lia.
Qed.

Lemma matched_addRunes_NewTrie k r1 r2 :
  keeps k -> matched (addRunes k NewTrie r1) r2 = commonPrefixLen r1 r2.
Proof.
  intros Hk. revert r2. induction r1 as [|a r1 IH]; intros r2.
  - simpl addRunes. rewrite (matched_children _ NewTrie).
    + by rewrite matched_NewTrie.
    + by rewrite keeps_children.
  - destruct r2 as [|b r2]; [done|]. simpl.
    rewrite lookup_empty. case_bool_decide as Hab.
    + subst b. rewrite lookup_insert_eq. by rewrite IH.
    + by rewrite lookup_insert_ne, lookup_empty.
Qed.

(** *** Members *)

(** The string of every leaf is collected. *)
Lemma buildMembers_includes p r prefix :
  includes p r <> None -> (prefix +:+ encodeRunes r) ∈ buildMembers p prefix.
Proof.
  revert p prefix. induction r as [|r0 r IH]; intros p prefix H.
  - simpl in H. rewrite buildMembers_unfold.
    destruct (leaf p); [|done]. apply elem_of_app. left.
    change (encodeRunes []) with EmptyString. rewrite append_empty_r. by left.
  - simpl in H. destruct (children p !! r0) as [c|] eqn:Hc; [|done].
    rewrite buildMembers_unfold. apply elem_of_app. right.
    apply list_elem_of_bind. exists (r0, c). split.
    + simpl. rewrite encodeRunes_cons, <- append_assoc. by apply IH.
    + by apply elem_of_map_to_list.
Qed.

Lemma elem_of_Members p x : x ∈ Members p <-> x ∈ buildMembers p EmptyString.
Proof. unfold Members. by rewrite merge_sort_Permutation. Qed.


(** *** The operations on strings *)

Lemma Contains_true p s :
  Contains p s = true <-> s <> EmptyString /\ includes p (runes s) <> None.
Proof.
  unfold Contains. destruct (len s =? 0) eqn:E.
  - apply len_zero_iff in E. split; [done|]. by intros [? _].
  - rewrite bool_decide_eq_true. split; [|by intros [_ ?]].
    intros H. split; [|done]. by intros ->.
Qed.

Lemma GetValue_includes p s :
  GetValue p s
  = if len s =? 0 then (None, false)
    else match value <$> includes p (runes s) with
         | Some v => (v, true)
         | None => (None, false)
         end.
Proof.
  unfold GetValue. destruct (len s =? 0); [done|].
  by destruct (includes p (runes s)).
Qed.

Lemma AddString_nonempty p s :
  s <> EmptyString -> AddString p s = addRunes (fun lf => lf) p (runes s).
Proof. intros H. unfold AddString. by rewrite len_nonzero. Qed.

Lemma AddValue_nonempty p s v :
  s <> EmptyString ->
  AddValue p s v
  = addRunes (fun lf => mkTrie (leaf lf) v (children lf)) p (runes s).
Proof. intros H. unfold AddValue. by rewrite len_nonzero. Qed.

Lemma Contains_AddString_mono p s (q : string) :
  Contains p q = true -> Contains (AddString p s) q = true.
Proof.
  rewrite !Contains_true. intros [Hq Hin]. split; [done|].
  unfold AddString. destruct (len s =? 0); [done|].
  by apply includes_addRunes_mono; [apply keeps_id|].
Qed.

Lemma Contains_AddValue_mono p s v (q : string) :
  Contains p q = true -> Contains (AddValue p s v) q = true.
Proof.
  rewrite !Contains_true. intros [Hq Hin]. split; [done|].
  unfold AddValue. destruct (len s =? 0); [done|].
  by apply includes_addRunes_mono; [apply keeps_set_value|].
Qed.

Lemma GetValue_AddString p s (q : string) :
  Contains p q = true -> GetValue (AddString p s) q = GetValue p q.
Proof.
  rewrite Contains_true. intros [Hq Hin]. rewrite !GetValue_includes.
  unfold AddString. destruct (len s =? 0); [done|].
  by rewrite value_includes_addRunes; [|apply keeps_id|..].
Qed.

Lemma GetValue_AddValue p s v (q : string) :
  Contains p q = true -> runes q <> runes s ->
  GetValue (AddValue p s v) q = GetValue p q.
Proof.
  rewrite Contains_true. intros [Hq Hin] Hne. rewrite !GetValue_includes.
  unfold AddValue. destruct (len s =? 0); [done|].
  by rewrite value_includes_addRunes; [|apply keeps_set_value|..].
Qed.

Lemma Size_AddString p s :
  (Size (AddString p s) + matched p (runes s)
   = Size p + RuneCountInString s)%nat.
Proof.
  unfold AddString, RuneCountInString. destruct (len s =? 0) eqn:E.
  - apply len_zero_iff in E as ->. simpl. lia.
  - apply Size_addRunes, keeps_id.
Qed.

Lemma matched_AddString_NewTrie (s : string) r :
  matched (AddString (@NewTrie V) s) r = commonPrefixLen (runes s) r.
Proof.
  unfold AddString. destruct (len s =? 0) eqn:E.
  - apply len_zero_iff in E as ->. by rewrite matched_NewTrie.
  - apply matched_addRunes_NewTrie, keeps_id.
Qed.

Lemma commonPrefixLen_le a b :
  (commonPrefixLen a b <= length a)%nat /\ (commonPrefixLen a b <= length b)%nat.
Proof.
  revert b. induction a as [|x a IH]; intros [|y b]; simpl; try lia.
  case_bool_decide; [|lia]. specialize (IH b). lia.
Qed.

(** The loop of [AllSubstringsAndValues] appends to both results
    together. *)
Lemma allSubstringsAndValuesLoop_length s p it sv vv sv' vv' :
  allSubstringsAndValuesLoop s p it sv vv = Some (sv', vv') ->
  length sv = length vv -> length sv' = length vv'.
Proof.
  revert p sv vv. induction it as [|[pos r] it IH]; intros p sv vv; simpl.
  - by intros [= <- <-].
  - destruct (children p !! r) as [child|]; [|by intros [= <- <-]].
    destruct (leaf child); [|by apply IH].
    destruct (slice s 0 (pos + RuneLen r)) as [sub|]; [|done]. simpl.
    intros H Hl. apply (IH _ _ _ H). rewrite !length_app. simpl. lia.
Qed.


(** [Members] is sorted, and is the same whatever the order in which the
    loop over the children collected the strings. *)
Lemma Members_sorted p : Sorted String.le (Members p).
Proof. apply Sorted_merge_sort, _. Qed.

Lemma Members_any_order p (l : list string) :
  l ≡ₚ buildMembers p EmptyString -> merge_sort String.le l = Members p.
Proof.
  intros Hl. apply (Sorted_unique String.le).
  - apply Sorted_merge_sort, _.
  - apply Members_sorted.
  - unfold Members. by rewrite !merge_sort_Permutation.
Qed.

(** *** Slicing *)

(** [AllSubstrings] slices within the string. *)
Lemma allSubstringsLoop_total (s : string) p it (v : list string) :
  (forall pos (x : rune), (pos, x) ∈ it -> 0 <= pos <= len s) ->
  is_Some (allSubstringsLoop s p it v).
Proof.
  revert p v. induction it as [|[pos x] it IH]; intros p v Hit; simpl.
  - by eexists.
  - assert (Hit' : forall pos (x : rune), (pos, x) ∈ it -> 0 <= pos <= len s).
    { intros q x' H. apply (Hit q x'). by right. }
    destruct (children p !! x) as [child|]; [|by eexists].
    destruct (leaf child); [|by apply IH].
    destruct (slice_is_Some s 0 pos) as [sub ->].
    { specialize (Hit pos x (list_elem_of_here _ _)). lia. }
    { specialize (Hit pos x (list_elem_of_here _ _)). lia. }
    simpl. by apply IH.
Qed.

(** X17.  [AllSubstrings] returns for every string, well-formed or not:
    no slice it takes is out of range. *)
Lemma AllSubstrings_total p (s : string) : is_Some (AllSubstrings p s).
Proof.
  apply allSubstringsLoop_total. intros pos x H.
  apply rangeFrom_pos in H. lia.
Qed.

(** [AllSubstringsAndValues] slices within the string when the string is
    well-formed. *)
Lemma allSubstringsAndValuesLoop_total (s : string) p it
      (sv : list string) (vv : list (option V)) :
  (forall pos (x : rune), (pos, x) ∈ it -> 0 <= pos /\ pos + RuneLen x <= len s) ->
  (forall pos (x : rune), (pos, x) ∈ it -> scalar x) ->
  is_Some (allSubstringsAndValuesLoop s p it sv vv).
Proof.
  revert p sv vv. induction it as [|[pos x] it IH]; intros p sv vv Hit Hsc; simpl.
  - by eexists.
  - assert (Hit' : forall pos (x : rune), (pos, x) ∈ it ->
                                 0 <= pos /\ pos + RuneLen x <= len s).
    { intros q x' H. apply (Hit q x'). by right. }
    assert (Hsc' : forall pos (x : rune), (pos, x) ∈ it -> scalar x).
    { intros q x' H. apply (Hsc q x'). by right. }
    destruct (children p !! x) as [child|]; [|by eexists].
    destruct (leaf child); [|by apply IH].
    destruct (slice_is_Some s 0 (pos + RuneLen x)) as [sub ->].
    { specialize (Hit pos x (list_elem_of_here _ _)).
      pose proof (RuneLen_scalar x (Hsc pos x (list_elem_of_here _ _))). lia. }
    { by apply (Hit pos x), list_elem_of_here. }
    simpl. by apply IH.
Qed.

Lemma AllSubstringsAndValues_total p (s : string) :
  wellFormed s -> is_Some (AllSubstringsAndValues p s).
Proof.
  intros Hs. apply allSubstringsAndValuesLoop_total.
  - intros pos x H. by apply rangeString_wellFormed_pos.
  - intros pos x H. pose proof (runes_scalar s) as Hall.
    rewrite Forall_forall in Hall. apply Hall.
    unfold runes. apply list_elem_of_fmap. by exists (pos, x).
Qed.

(** *** Anchored matches *)

(** On a well-formed string the loop of [AllSubstringsAndValues] collects
    the anchored matches of its runes. *)
Lemma allSubstringsAndValuesLoop_prefixMatches p seen r
      (sv : list string) (vv : list (option V)) :
  Forall scalar r ->
  allSubstringsAndValuesLoop (encodeRunes (seen ++ r)) p
    (rangeFrom (encodeRunes r) (len (encodeRunes seen)) 0) sv vv
  = Some (sv ++ ((fun dv => encodeRunes dv.1) <$> prefixMatches p seen r),
          vv ++ (snd <$> prefixMatches p seen r)).
Proof.
  intros Hr. revert p seen sv vv.
  induction Hr as [|x r Hx Hr IH]; intros p seen sv vv.
  - simpl. by rewrite !app_nil_r.
  - rewrite encodeRunes_cons, rangeFrom_Encode by done.
    cbn [allSubstringsAndValuesLoop prefixMatches].
    destruct (children p !! x) as [child|]; [|by rewrite !app_nil_r].
    replace (seen ++ x :: r) with ((seen ++ [x]) ++ r)
      by (by rewrite <- (assoc_L (++))).
    rewrite <- len_encodeRunes_snoc by done.
    pose proof (slice_prefix (encodeRunes (seen ++ [x])) (encodeRunes r)) as Hsl.
    rewrite <- encodeRunes_app in Hsl.
    destruct (leaf child).
    + rewrite Hsl. simpl. rewrite IH.
      by rewrite <- !(assoc_L (++) _ [_]).
    + by rewrite IH.
Qed.


(** Every match is a prefix of [r] that leads to a leaf, with the value of
    that leaf. *)
Lemma prefixMatches_sound p seen r (d : list rune) (v : option V) :
  (d, v) ∈ prefixMatches p seen r ->
  exists n lf, d = seen ++ take (S n) r /\ (n < length r)%nat
               /\ includes p (take (S n) r) = Some lf /\ value lf = v.
Proof.
  revert p seen. induction r as [|x r IH]; intros p seen; simpl.
  - by intros ?%elem_of_nil.
  - destruct (children p !! x) as [child|] eqn:Hc; [|by intros ?%elem_of_nil].
    intros [Hin|Hin]%elem_of_app.
    + destruct (leaf child) eqn:Hl; [|by apply elem_of_nil in Hin].
      apply list_elem_of_singleton in Hin as [= -> ->].
      exists 0%nat, child. rewrite take_0. simpl. rewrite Hl.
      split_and!; [done|lia|done|done].
    + apply IH in Hin as (n & lf & -> & Hk & Hin & Hv).
      exists (S n), lf. rewrite <- (assoc_L (++)). simpl in *.
      split_and!; [done|lia|done|done].
Qed.

(** Every prefix of [r] that leads to a leaf is a match. *)
Lemma prefixMatches_complete p seen r (n : nat) lf :
  (n < length r)%nat -> includes p (take (S n) r) = Some lf ->
  (seen ++ take (S n) r, value lf) ∈ prefixMatches p seen r.
Proof.
  revert p seen n. induction r as [|x r IH]; intros p seen n Hk; simpl in *.
  - lia.
  - destruct (children p !! x) as [child|] eqn:Hc; [|done].
    destruct n as [|n].
    + rewrite take_0. simpl. destruct (leaf child) eqn:Hl; [|done].
      intros [= <-]. apply elem_of_app. left. by left.
    + intros Hin. apply elem_of_app. right.
      replace (seen ++ x :: take (S n) r) with ((seen ++ [x]) ++ take (S n) r)
        by (by rewrite <- (assoc_L (++))).
      apply IH; [lia|done].
Qed.

(** The matches come shortest first. *)
Lemma prefixMatches_lengths p seen r :
  StronglySorted lt (length <$> (prefixMatches p seen r).*1)
  /\ Forall (fun d => (length seen < length d)%nat) (prefixMatches p seen r).*1.
Proof.
  revert p seen. induction r as [|x r IH]; intros p seen; simpl.
  - split; constructor.
  - destruct (children p !! x) as [child|]; [|split; constructor].
    destruct (IH child (seen ++ [x])) as [Hs Hf].
    assert (Hf' : Forall (fun d => (length seen < length d)%nat)
                         (prefixMatches child (seen ++ [x]) r).*1).
    { eapply Forall_impl; [exact Hf|]. intros d. rewrite length_app. simpl. lia. }
    destruct (leaf child); simpl; [|done]. split.
    + constructor; [done|]. apply Forall_fmap.
      eapply Forall_impl; [exact Hf|]. intros d. simpl. done.
    + constructor; [|done]. rewrite length_app. simpl. lia.
Qed.

(** The loop of [AllSubstrings] collects each anchored match without its
    last rune: it slices up to the position at which the rune begins. *)
Lemma allSubstringsLoop_prefixMatches p seen r (v : list string) :
  Forall scalar r ->
  allSubstringsLoop (encodeRunes (seen ++ r)) p
    (rangeFrom (encodeRunes r) (len (encodeRunes seen)) 0) v
  = Some (v ++ ((fun dv => encodeRunes (removelast dv.1))
                  <$> prefixMatches p seen r)).
Proof.
  intros Hr. revert p seen v.
  induction Hr as [|x r Hx Hr IH]; intros p seen v.
  - simpl. by rewrite !app_nil_r.
  - rewrite encodeRunes_cons, rangeFrom_Encode by done.
    cbn [allSubstringsLoop prefixMatches].
    destruct (children p !! x) as [child|]; [|by rewrite !app_nil_r].
    pose proof (slice_prefix (encodeRunes seen) (encodeRunes (x :: r))) as Hsl.
    rewrite <- encodeRunes_app in Hsl.
    rewrite <- len_encodeRunes_snoc by done.
    specialize (IH child (seen ++ [x])).
    rewrite <- (assoc_L (++)) in IH. simpl in IH.
    destruct (leaf child).
    + rewrite Hsl. simpl. rewrite IH, removelast_last.
      by rewrite <- !(assoc_L (++) _ [_]).
    + by rewrite IH.
Qed.

Lemma AllSubstrings_prefixMatches p (cps : list rune) :
  Forall scalar cps ->
  AllSubstrings p (encodeRunes cps)
  = Some ((fun dv => encodeRunes (removelast dv.1)) <$> prefixMatches p [] cps).
Proof.
  intros Hc. unfold AllSubstrings, rangeString.
  apply (allSubstringsLoop_prefixMatches p [] cps [] Hc).
Qed.

Lemma AllSubstringsAndValues_prefixMatches p (cps : list rune) :
  Forall scalar cps ->
  AllSubstringsAndValues p (encodeRunes cps)
  = Some ((fun dv => encodeRunes dv.1) <$> prefixMatches p [] cps,
          (prefixMatches p [] cps).*2).
Proof.
  intros Hc. unfold AllSubstringsAndValues, rangeString.
  apply (allSubstringsAndValuesLoop_prefixMatches p [] cps [] [] Hc).
Qed.

(** X18.  [AllSubstringsAndValues] on a well-formed string returns the
    stored strings that are prefixes of it, each with the value
    [GetValue] gives for it, the shortest first. *)
Theorem AllSubstringsAndValues_correct p (cps : list rune) :
  Forall scalar cps ->
  exists sv vv,
    AllSubstringsAndValues p (encodeRunes cps) = Some (sv, vv)
    /\ length sv = length vv
    /\ (forall (i : nat) (sub : string) (v : option V),
           sv !! i = Some sub -> vv !! i = Some v ->
           (exists rest, encodeRunes cps = sub +:+ rest)
           /\ Contains p sub = true /\ GetValue p sub = (v, true))
    /\ (forall sub : string,
           wellFormed sub -> Contains p sub = true ->
           (exists rest, encodeRunes cps = sub +:+ rest) -> sub ∈ sv)
    /\ StronglySorted lt (RuneCountInString <$> sv).
Proof.
  intros Hc. set (pm := prefixMatches p [] cps).
  exists ((fun dv => encodeRunes dv.1) <$> pm), (pm.*2).
  assert (Hrun : AllSubstringsAndValues p (encodeRunes cps)
                 = Some ((fun dv => encodeRunes dv.1) <$> pm, pm.*2)).
  { by apply AllSubstringsAndValues_prefixMatches. }
  assert (Htake : forall n, Forall scalar (take n cps)).
  { intros n. by apply Forall_take. }
  split_and!.
  - done.
  - by rewrite !length_fmap.
  - intros i sub v Hi Hv.
    rewrite list_lookup_fmap in Hi. rewrite list_lookup_fmap in Hv.
    destruct (pm !! i) as [[d v']|] eqn:Hpm; [|done].
    simpl in Hi, Hv. injection Hi as <-. injection Hv as <-.
    apply list_elem_of_lookup_2 in Hpm.
    apply prefixMatches_sound in Hpm as (n & lf & -> & Hk & Hin & Hv).
    simpl.
    assert (Hne : encodeRunes (take (S n) cps) <> EmptyString).
    { apply encodeRunes_nonempty; [apply Htake|].
      destruct cps; [simpl in Hk; lia|done]. }
    split_and!.
    + exists (encodeRunes (drop (S n) cps)).
      by rewrite <- encodeRunes_app, take_drop.
    + apply Contains_true. split; [done|].
      rewrite runes_encodeRunes by apply Htake. by rewrite Hin.
    + rewrite GetValue_includes, len_nonzero by done.
      rewrite runes_encodeRunes by apply Htake. rewrite Hin. simpl.
      by rewrite Hv.
  - intros sub Hw Hsub [rest Hrest].
    apply Contains_true in Hsub as [Hne Hin].
    apply (f_equal runes) in Hrest.
    rewrite runes_encodeRunes, runes_append_wellFormed in Hrest by done.
    destruct (includes p (runes sub)) as [lf|] eqn:Hlf; [|done].
    pose proof (runes_nonempty sub Hne) as Hr.
    destruct (runes sub) as [|x rs] eqn:Ers; [done|].
    assert (Hk : take (S (length rs)) cps = x :: rs).
    { rewrite Hrest. by rewrite (take_app_length (x :: rs)). }
    pose proof (prefixMatches_complete p [] cps (length rs) lf) as Hcomp.
    rewrite Hk in Hcomp.
    apply list_elem_of_fmap. exists (x :: rs, value lf). split.
    + simpl. rewrite <- Ers. by rewrite Hw.
    + apply Hcomp; [|done]. rewrite Hrest, length_app. simpl. lia.
  - destruct (prefixMatches_lengths p [] cps) as [Hs _]. fold pm in Hs.
    assert (Hpm : Forall (fun dv => Forall scalar dv.1) pm).
    { apply Forall_forall. intros [d v] Hin.
      apply prefixMatches_sound in Hin as (n & _ & -> & _). simpl. apply Htake. }
    clearbody pm. clear Hrun.
    induction pm as [|[d v] pm IH]; [constructor|].
    simpl in *. apply StronglySorted_inv in Hs as [Hs Hd].
    apply Forall_cons in Hpm as [Hdsc Hpm].
    constructor; [by apply IH|].
    unfold RuneCountInString at 1. simpl. rewrite runes_encodeRunes by done.
    clear IH Hs. induction pm as [|[d' v'] pm IH]; [constructor|].
    simpl in *. apply Forall_cons in Hd as [Hd1 Hd], Hpm as [Hd'sc Hpm].
    constructor; [|by apply IH].
    unfold RuneCountInString. by rewrite runes_encodeRunes.
Qed.

(** *** Insertion *)

(** C7 (as amended).  After [AddString(s)] with [s] not empty,
    [Contains(s)] is true and [Members()] holds the encoding of the
    runes of [s]: it holds [s] itself whenever [s] is well-formed
    UTF-8. *)
Theorem C7_AddString_Contains_Members p (s : string) :
  s <> EmptyString ->
  Contains (AddString p s) s = true
  /\ encodeRunes (runes s) ∈ Members (AddString p s)
  /\ (wellFormed s -> s ∈ Members (AddString p s)).
Proof.
  intros Hs.
  assert (Hin : includes (AddString p s) (runes s) <> None).
  { rewrite AddString_nonempty by done. apply includes_addRunes, keeps_id. }
  assert (Hm : encodeRunes (runes s) ∈ Members (AddString p s)).
  { apply elem_of_Members.
    apply (buildMembers_includes _ _ EmptyString Hin). }
  split_and!; [by apply Contains_true|done|].
  intros Hw. unfold wellFormed in Hw. by rewrite Hw in Hm.
Qed.

(** C9 (as amended).  [AddString] and [AddValue] keep every stored
    string a member; [AddString] changes no stored value, and
    [AddValue(s, v)] changes none but that of the strings that have the
    runes of [s]: among well-formed strings, that of [s] alone. *)
Theorem C9_insertion_keeps_entries p (s q : string) (v : option V) :
  Contains p q = true ->
  Contains (AddString p s) q = true
  /\ Contains (AddValue p s v) q = true
  /\ GetValue (AddString p s) q = GetValue p q
  /\ (runes q <> runes s -> GetValue (AddValue p s v) q = GetValue p q)
  /\ (wellFormed s -> wellFormed q -> q <> s ->
      GetValue (AddValue p s v) q = GetValue p q).
Proof.
  intros Hq. split_and!.
  - by apply Contains_AddString_mono.
  - by apply Contains_AddValue_mono.
  - by apply GetValue_AddString.
  - by apply GetValue_AddValue.
  - intros Hs Hwq Hne. apply GetValue_AddValue; [done|].
    intros E. apply Hne. by apply wellFormed_runes_inj.
Qed.

(** *** Size *)

(** C6 (as amended).  [Size] is the number of nodes strictly below the
    root, each node being told by its path; two strings added to an
    empty trie give as many nodes as they have runes together, less
    the runes of their longest common prefix, counted once. *)
Theorem C6_Size_counts_nodes_below_root p (s1 s2 : string) :
  (NoDup (nodePaths p)
   /\ (forall path,
          path ∈ nodePaths p <-> path <> [] /\ is_Some (nodeAt p path))
   /\ Size p = length (nodePaths p))
  /\ Size (AddString (AddString (@NewTrie V) s1) s2)
     = (RuneCountInString s1 + RuneCountInString s2
        - commonPrefixLen (runes s1) (runes s2))%nat.
Proof.
  split.
  - split_and!; [apply NoDup_nodePaths|apply elem_of_nodePaths
                 |apply Size_nodePaths].
  - pose proof (Size_AddString (AddString NewTrie s1) s2) as H2.
    rewrite matched_AddString_NewTrie in H2.
    pose proof (Size_AddString NewTrie s1) as H1.
    rewrite matched_NewTrie in H1.
    change (Size (@NewTrie V)) with 0%nat in H1.
    pose proof (commonPrefixLen_le (runes s1) (runes s2)). lia.
Qed.

(** *** Removal *)

Lemma includes_removeRunes p r : includes (removeRunes p r).1 r = None.
Proof.
  revert p. induction r as [|r0 r IH]; intros p; [done|].
  cbn [removeRunes]. destruct (children p !! r0) as [child|] eqn:Hc.
  - specialize (IH child). destruct (removeRunes child r) as [child' empty].
    destruct empty; simpl.
    + by rewrite lookup_delete_eq.
    + by rewrite lookup_insert_eq.
  - simpl. by rewrite Hc.
Qed.

(** Removing a string that goes on beyond a leaf without children takes
    that leaf away. *)
Lemma removeRunes_beyond_leaf p (rt : list rune) (x : rune) (rx : list rune)
      (lf : Trie V) :
  rt <> [] -> nodeAt p rt = Some lf -> children lf = ∅ ->
  includes (removeRunes p (rt ++ x :: rx)).1 rt = None.
Proof.
  revert p. induction rt as [|a rt IH]; intros p Hne Hlf Hch; [done|].
  simpl in Hlf. rewrite <- app_comm_cons. cbn [removeRunes].
  destruct (children p !! a) as [child|] eqn:Hc; [|done].
  destruct rt as [|b rt].
  - simpl in Hlf. injection Hlf as ->. cbn [app removeRunes].
    rewrite Hch, lookup_empty, map_size_empty. simpl.
    by rewrite lookup_delete_eq.
  - specialize (IH child).
    destruct (removeRunes child ((b :: rt) ++ x :: rx)) as [child' empty].
    destruct empty; cbn [fst includes children].
    + by rewrite lookup_delete_eq.
    + rewrite lookup_insert_eq. by apply IH.
Qed.

(** After [Remove(s)] the string [s] is no member. *)
Lemma Contains_Remove p (s : string) : Contains (Remove p s).1 s = false.
Proof.
  unfold Contains, Remove. destruct (len s =? 0); [done|].
  apply bool_decide_eq_false. intros H. apply H, includes_removeRunes.
Qed.

(** *** The empty string and the empty trie *)

(** X20.  On the empty string every operation returns at once: the
    additions and [Remove] leave the trie as it is, and the queries find
    nothing. *)
Lemma empty_string_no_op p (v : option V) :
  AddString p EmptyString = p
  /\ AddValue p EmptyString v = p
  /\ Contains p EmptyString = false
  /\ GetValue p EmptyString = (None, false)
  /\ Remove p EmptyString = (p, bool_decide (size (children p) = 0%nat))
  /\ AllSubstrings p EmptyString = Some []
  /\ AllSubstringsAndValues p EmptyString = Some ([], []).
Proof. by split_and!. Qed.

(** X21.  A new trie has no node and no member, and every query on it
    finds nothing. *)
Lemma empty_trie_queries (q : string) :
  Size (@NewTrie V) = 0%nat
  /\ Members (@NewTrie V) = []
  /\ Contains (@NewTrie V) q = false
  /\ GetValue (@NewTrie V) q = (None, false)
  /\ AllSubstrings (@NewTrie V) q = Some []
  /\ AllSubstringsAndValues (@NewTrie V) q = Some ([], []).
Proof.
  split_and!; try done.
  - unfold Contains. destruct (len q =? 0); [done|].
    apply bool_decide_eq_false. intros H. apply H.
    by destruct (runes q).
  - unfold GetValue. destruct (len q =? 0); [done|]. by destruct (runes q).
  - unfold AllSubstrings. by destruct (rangeString q) as [|[pos r] it].
  - unfold AllSubstringsAndValues.
    by destruct (rangeString q) as [|[pos r] it].
Qed.

End props.

(** *** Runs of the code *)

(** C1.  Removing a string takes away a stored string that is a prefix
    of it: the node of the prefix is pruned although it is a leaf. *)
Lemma C1_Remove_prunes_stored_prefix :
  (let p := AddString (AddString (@NewTrie unit) "a") "ab" in
   Contains p "a" = true /\ Contains (Remove p "ab").1 "a" = false)
  /\ (let p := AddString (@NewTrie unit) "a" in
      Contains p "ab" = false /\ Contains p "a" = true
      /\ Contains (Remove p "ab").1 "a" = false).
Proof. vm_compute. done. Qed.

(** C2.  [AllSubstrings] returns each match without its last rune. *)
Lemma C2_AllSubstrings_cuts_last_rune :
  AllSubstrings hyphTrie "hyphenation" = Some ["hyp"]
  /\ AllSubstrings hyphTrie "henation" = Some ["he"; "hen"; "hena"]
  /\ Contains hyphTrie "hyp" = false /\ Contains hyphTrie "he" = false.
Proof. vm_compute. done. Qed.

(** C4.  The strings of [AllSubstringsAndValues] are not those of
    [AllSubstrings]. *)
Lemma C4_AllSubstringsAndValues_differs :
  let p := AddValue (AddValue (AddValue (@NewTrie (list Z))
             "hen" (Some [0; 2; 0])) "hena" (Some [0; 0; 0; 4]))
             "henat" (Some [0; 0; 5; 0; 0]) in
  AllSubstringsAndValues p "henation"
  = Some (["hen"; "hena"; "henat"],
          [Some [0; 2; 0]; Some [0; 0; 0; 4]; Some [0; 0; 5; 0; 0]])
  /\ AllSubstrings p "henation" = Some ["he"; "hen"; "hena"].
Proof. vm_compute. done. Qed.

(** C6.  Two strings with a common prefix of one rune give three nodes,
    not two; and the nodes are as many as the runes, not as the bytes. *)
Lemma C6_formula_counterexample :
  (let s1 := "ab" in
   let s2 := "ac" in
   s1 <> EmptyString /\ s2 <> EmptyString
   /\ commonPrefixLen (runes s1) (runes s2) = 1%nat
   /\ Z.of_nat (Size (AddString (AddString (@NewTrie unit) s1) s2))
      <> len s1 + len s2 - 2 * 1)
  /\ (let s1 := "é" in
      let s2 := "éa" in
      commonPrefixLen (runes s1) (runes s2) = 1%nat
      /\ Size (AddString (AddString (@NewTrie unit) s1) s2) = 2%nat
      /\ len s1 + len s2 - 1 = 4).
Proof. vm_compute. split_and!; done. Qed.

Lemma C7_witness :
  let s := "héllo" in
  s <> EmptyString /\ wellFormed s
  /\ Contains (AddString (@NewTrie unit) s) s = true
  /\ s ∈ Members (AddString (@NewTrie unit) s).
Proof.
  intros s.
  assert (Hs : s <> EmptyString) by done.
  assert (Hw : wellFormed s) by reflexivity.
  destruct (C7_AddString_Contains_Members (@NewTrie unit) s Hs)
    as (Hc & _ & Hm).
  split_and!; [done|done|done|by apply Hm].
Defined.

(** C7.  A string that is not well-formed is not among the members. *)
Lemma C7_ill_formed_counterexample :
  illFormed <> EmptyString
  /\ illFormed ∉ Members (AddString (@NewTrie unit) illFormed).
Proof.
  split; [done|].
  assert (Members (AddString (@NewTrie unit) illFormed) = [replacement])
    as -> by (vm_compute; reflexivity).
  by intros [=]%list_elem_of_singleton.
Qed.

(** C8.  [AllSubstringsAndValues] slices beyond the end of a string
    whose byte was read as [RuneError]. *)
Lemma C8_AllSubstringsAndValues_panics :
  let p := AddString (@NewTrie unit) illFormed in
  Contains p illFormed = true /\ AllSubstringsAndValues p illFormed = None.
Proof. vm_compute. done. Qed.

Lemma C9_witness :
  let p := AddValue (@NewTrie Z) "hen" (Some 2) in
  Contains p "hen" = true
  /\ wellFormed "hena" /\ wellFormed "hen" /\ "hen" <> "hena"
  /\ Contains (AddString p "hena") "hen" = true
  /\ Contains (AddValue p "hena" (Some 4)) "hen" = true
  /\ GetValue (AddValue p "hena" (Some 4)) "hen" = GetValue p "hen".
Proof.
  intros p.
  assert (Hc : Contains p "hen" = true) by reflexivity.
  assert (Hs : wellFormed "hena") by reflexivity.
  assert (Hq : wellFormed "hen") by reflexivity.
  assert (Hne : "hen" <> "hena") by done.
  destruct (C9_insertion_keeps_entries p "hena" "hen" (Some 4) Hc)
    as (Hc1 & Hc2 & _ & _ & Hv).
  split_and!; [done..|]. by apply Hv.
Defined.

(** C9.  [AddValue] on an ill-formed string changes the value of the
    distinct string that has the same runes. *)
Lemma C9_aliasing_counterexample :
  let p := AddValue (@NewTrie Z) replacement (Some 1) in
  replacement <> illFormed
  /\ Contains p replacement = true
  /\ GetValue (AddValue p illFormed (Some 2)) replacement
     <> GetValue p replacement.
Proof. vm_compute. split_and!; done. Qed.

End trie_props.

(** ** The hyphenation trie *)

Module valuetrie_props.
Import gostring utf8 goiter valuetrie samples gostring_props utf8_props.

(** *** The goroutine never indexes out of range *)

Lemma get_is_Some (s : string) (n : nat) :
  (n < String.length s)%nat -> is_Some (String.get n s).
Proof.
  revert n. induction s as [|c t IH]; intros n; simpl; [lia|].
  destruct n as [|n]; [by eexists|]. intros H. apply IH. lia.
Qed.

Lemma index_is_Some (s : string) (i : Z) :
  0 <= i < len s -> is_Some (index s i).
Proof.
  intros H. unfold index.
  destruct (i <? 0) eqn:E1; [lia|]. destruct (len s <=? i) eqn:E2; [lia|].
  simpl. apply fmap_is_Some, get_is_Some. unfold len in H. lia.
Qed.

Lemma sendValues_total (s : string) (it : list (Z * rune)) :
  (forall pos r, (pos, r) ∈ it -> 0 <= pos) ->
  is_Some (sendValues s (len s) it).
Proof.
  induction it as [|[pos r] it IH]; intros Hpos; cbn [sendValues].
  - by eexists.
  - assert (Hit : is_Some (sendValues s (len s) it)).
    { apply IH. intros q r' H. apply (Hpos q r'). by right. }
    destruct ((rune0 <=? r) && (r <=? rune9)); [done|].
    destruct (pos <? len s - 1) eqn:E; [|done].
    destruct (index_is_Some s (pos + 1)) as [next ->].
    { specialize (Hpos pos r (list_elem_of_here _ _)). lia. }
    destruct Hit as [rest ->]. simpl.
    destruct ((next <=? byteVal "9") && (byteVal "0" <=? next)); by eexists.
Qed.

Lemma AddPatternString_total (p : ValueTrie) (s : string) :
  is_Some (AddPatternString p s).
Proof.
  unfold AddPatternString.
  destruct (sendValues_total s (rangeString s)) as [iter ->]; [|by eexists].
  intros pos r H. by apply rangeFrom_pos in H as [? _].
Qed.

(** *** A digit at the head of a pattern *)

Lemma rangeFrom_shift (s : string) (pos : Z) (skip : nat) :
  rangeFrom s (pos + 1) skip = shift1 <$> rangeFrom s pos skip.
Proof.
  revert pos skip. induction s as [|c t IH]; intros pos skip; [done|].
  cbn [rangeFrom]. destruct skip as [|k]; [|apply IH].
  destruct (DecodeRuneInString (String c t)) as [r n].
  rewrite fmap_cons. f_equal. apply IH.
Qed.

Lemma index_cons (c : ascii) (s : string) (i : Z) :
  0 <= i -> index (String c s) (i + 1) = index s i.
Proof.
  intros Hi. unfold index.
  replace (len (String c s)) with (len s + 1)
    by (unfold len; cbn [String.length]; lia).
  replace (i + 1 <? 0) with (i <? 0) by lia.
  replace (len s + 1 <=? i + 1) with (len s <=? i) by lia.
  destruct ((i <? 0) || (len s <=? i)); [done|].
  replace (Z.to_nat (i + 1)) with (S (Z.to_nat i)) by lia. done.
Qed.

Lemma sendValues_shift (c : ascii) (s : string) (it : list (Z * rune)) :
  (forall pos r, (pos, r) ∈ it -> 0 <= pos) ->
  sendValues (String c s) (len s + 1) (shift1 <$> it)
  = sendValues s (len s) it.
Proof.
  induction it as [|[pos r] it IH]; intros Hpos; [done|].
  rewrite fmap_cons. unfold shift1 at 1. cbn [sendValues fst snd].
  assert (Hit : sendValues (String c s) (len s + 1) (shift1 <$> it)
                = sendValues s (len s) it).
  { apply IH. intros q r' H. apply (Hpos q r'). by right. }
  rewrite Hit. replace (pos + 1 <? len s + 1 - 1) with (pos <? len s - 1) by lia.
  rewrite index_cons; [done|].
  specialize (Hpos pos r (list_elem_of_here _ _)). lia.
Qed.

(** A digit at the head of a pattern changes nothing of what is stored. *)
Theorem AddPatternString_leading_digit (p : ValueTrie) (d : ascii) (s : string) :
  rune0 <= byteVal d <= rune9 ->
  AddPatternString p (String d s) = AddPatternString p s.
Proof.
  intros Hd. change rune0 with 48 in Hd. change rune9 with 57 in Hd.
  assert (Hdec : DecodeRuneInString (String d s) = (byteVal d, 1)).
  { cbn [DecodeRuneInString]. by rewrite first_ascii by lia. }
  assert (Hrange : rangeString (String d s)
                   = (0, byteVal d) :: (shift1 <$> rangeString s)).
  { unfold rangeString. cbn [rangeFrom]. rewrite Hdec. simpl.
    by rewrite <- rangeFrom_shift. }
  unfold AddPatternString. rewrite Hrange. cbn [sendValues].
  replace ((rune0 <=? byteVal d) && (byteVal d <=? rune9)) with true
    by (change rune0 with 48; change rune9 with 57; lia).
  replace (len (String d s)) with (len s + 1)
    by (unfold len; cbn [String.length]; lia).
  rewrite sendValues_shift.
  2:{ intros pos r H. by apply rangeFrom_pos in H as [? _]. }
  unfold Map, runes. rewrite Hrange. rewrite fmap_cons. cbn [snd].
  rewrite fmap_cons.
  replace ((rune0 <=? byteVal d) && (byteVal d <=? rune9)) with true
    by (change rune0 with 48; change rune9 with 57; lia).
  rewrite filter_cons_False by lia.
  replace ((shift1 <$> rangeString s).*2) with ((rangeString s).*2); [done|].
  rewrite <- list_fmap_compose. done.
Qed.

(** *** Weights of the nodes that exist *)

Lemma nodeAt_addRunes (p : ValueTrie) (r : list rune) (iter : list Z)
      (path : list rune) (n : ValueTrie) :
  nodeAt p path = Some n ->
  exists n', nodeAt (addRunes p r iter) path = Some n' /\ value n' = value n.
Proof.
  revert p iter path n. induction r as [|x r IH]; intros p iter path n H.
  - destruct path as [|a path]; simpl in *.
    + injection H as <-. by eexists.
    + by exists n.
  - cbn [addRunes]. destruct (recv iter) as [val iter'].
    destruct path as [|a path]; simpl in *.
    + injection H as <-. by eexists.
    + destruct (decide (x = a)) as [->|Hne].
      * rewrite lookup_insert_eq.
        destruct (children p !! a) as [c|]; [|done]. by apply IH.
      * rewrite lookup_insert_ne by done. by exists n.
Qed.

Lemma value_addRunes (p : ValueTrie) (r : list rune) (iter : list Z) :
  value (addRunes p r iter) = value p.
Proof. destruct r; simpl; [done|]. by destruct (recv iter). Qed.

(** Below a node without children, every node of the path is created and
    carries the value received for its rune. *)
Lemma pathValues_addRunes_fresh (p : ValueTrie) (r : list rune) (iter : list Z) :
  children p = ∅ ->
  pathValues (addRunes p r iter) r = Some (recvN (length r) iter).
Proof.
  revert p iter. induction r as [|x r IH]; intros p iter Hp; [done|].
  cbn [addRunes recvN length]. destruct (recv iter) as [val iter'].
  cbn [pathValues children]. rewrite lookup_insert_eq, Hp, lookup_empty.
  rewrite IH by done. by rewrite value_addRunes.
Qed.

(** C10.  [AddPatternString] returns, and every node there was before
    is there afterwards, at the same path and with the weight it had. *)
Theorem C10_AddPatternString_keeps_weights
        (p : ValueTrie) (s : string) (path : list rune) (n : ValueTrie) :
  nodeAt p path = Some n ->
  exists p' n',
    AddPatternString p s = Some p'
    /\ nodeAt p' path = Some n' /\ value n' = value n.
Proof.
  intros H. unfold AddPatternString.
  destruct (sendValues_total s (rangeString s)) as [iter ->].
  { intros pos r Hin. by apply rangeFrom_pos in Hin as [? _]. }
  simpl.
  set (pure := Map _ s).
  destruct (nodeAt_addRunes p (runes pure) iter path n H) as (n' & Hn' & Hv).
  by exists (addRunes p (runes pure) iter), n'.
Qed.

(** *** Runs of the code *)

(** C3.  The pattern [hy3phe2n5a4t2io2n] stores [hyphenation], and the
    node each rune leads to carries the weight of that rune. *)
Theorem C3_hyphenation_weights :
  AddPatternString NewValueTrie "hy3phe2n5a4t2io2n" = Some hyphenation
  /\ Contains hyphenation "hyphenation" = true
  /\ Members hyphenation = ["hyphenation"]
  /\ pathValues hyphenation (runes "hyphenation")
     = Some [0; 3; 0; 0; 2; 5; 4; 2; 0; 2; 0]
  /\ (fun i => value <$> nodeAt hyphenation
                               (take (S i) (runes "hyphenation")))
     <$> seq 0 11
     = Some <$> [0; 3; 0; 0; 2; 5; 4; 2; 0; 2; 0].
Proof. split_and!; vm_compute; reflexivity. Qed.

(** C5.  The digit a pattern begins with is passed over: no node of
    [5emnix] carries the weight 5. *)
Lemma C5_leading_digit_dropped :
  let p := default NewValueTrie (AddPatternString NewValueTrie "5emnix") in
  AddPatternString NewValueTrie "5emnix" = Some p
  /\ Members p = ["emnix"]
  /\ pathValues p (runes "emnix") = Some [0; 0; 0; 0; 0]
  /\ PatternMembers p false = ["emnix"].
Proof. vm_compute. done. Qed.

Lemma C10_witness :
  let p := default NewValueTrie (AddPatternString NewValueTrie "he2n") in
  let path := runes "he" in
  (value <$> nodeAt p path) = Some 2
  /\ exists p' n',
      AddPatternString p "he5n" = Some p'
      /\ nodeAt p' path = Some n' /\ value n' = 2.
Proof.
  intros p path.
  destruct (nodeAt p path) as [n|] eqn:Hn; [|done].
  assert (Hv : value n = 2) by (by injection Hn as <-).
  split; [by rewrite <- Hv|].
  destruct (C10_AddPatternString_keeps_weights p "he5n" path n Hn)
    as (p' & n' & Hp' & Hn' & Hv').
  exists p', n'. by rewrite <- Hv, <- Hv'.
Defined.

End valuetrie_props.

(** ** Further properties of [Trie] *)

Module trie_laws.
Import gostring utf8 goiter trie samples gostring_props utf8_props trie_props.

Section laws.
Context {V : Type}.
Implicit Types (p c : Trie V) (r t : list rune) (k : Trie V -> Trie V).
Implicit Types (s q : string) (m : gmap rune (Trie V)).

(** *** What an addition adds *)

Lemma includes_NewTrie t : includes (@NewTrie V) t = None.
Proof. by destruct t. Qed.

Lemma includes_addRunes_inv k p r t :
  keeps k -> includes (addRunes k p r) t <> None ->
  includes p t <> None \/ t = r.
Proof.
  intros Hk. revert p t. induction r as [|r0 r IH]; intros p t.
  - destruct t as [|t0 t]; [by right|]. simpl addRunes.
    rewrite includes_keeps by done. by left.
  - destruct t as [|t0 t]; simpl.
    + intros H. left. by destruct (leaf p).
    + destruct (decide (r0 = t0)) as [->|Hne].
      * rewrite lookup_insert_eq. intros H. apply IH in H as [H| ->]; [|by right].
        left. destruct (children p !! t0); [done|].
        by rewrite includes_NewTrie in H.
      * rewrite lookup_insert_ne by done. by left.
Qed.

Lemma Contains_addRunes k p s q :
  keeps k ->
  Contains (if len s =? 0 then p else addRunes k p (runes s)) q = true
  <-> Contains p q = true \/ (q <> EmptyString /\ runes q = runes s).
Proof.
  intros Hk. rewrite !Contains_true. destruct (len s =? 0) eqn:E.
  - apply len_zero_iff in E as ->. split; [by left|].
    intros [H|[Hq E]]; [done|]. by apply runes_nonempty in Hq.
  - split.
    + intros [Hq H]. apply includes_addRunes_inv in H as [H|H]; [|by right|done].
      by left.
    + intros [[Hq H]|[Hq H]]; (split; [done|]).
      * by apply includes_addRunes_mono.
      * rewrite H. by apply includes_addRunes.
Qed.

(** X1.  After [AddString(s)] or [AddValue(s, v)] the members are those
    there were and the non-empty strings that read as the runes of [s]:
    nothing else becomes a member. *)
Theorem Contains_after_insertion p s q (v : option V) :
  (Contains (AddString p s) q = true
   <-> Contains p q = true \/ (q <> EmptyString /\ runes q = runes s))
  /\ (Contains (AddValue p s v) q = true
      <-> Contains p q = true \/ (q <> EmptyString /\ runes q = runes s)).
Proof.
  split.
  - apply (Contains_addRunes _ p s q keeps_id).
  - apply (Contains_addRunes _ p s q (keeps_set_value v)).
Qed.

Lemma includes_addRunes_value k p r (v : option V) :
  (forall x, leaf (k x) = leaf x /\ value (k x) = v) ->
  value <$> includes (addRunes k p r) r = Some v.
Proof.
  intros Hk. revert p. induction r as [|r0 r IH]; intros p; simpl.
  - destruct (Hk (mkTrie true (value p) (children p))) as [-> Hv]. simpl.
    by rewrite Hv.
  - rewrite lookup_insert_eq. apply IH.
Qed.

(** X2.  [GetValue] after [AddValue(s, v)] returns [v] for the
    non-empty strings that read as the runes of [s], and what it returned
    before for every other string. *)
Theorem GetValue_after_AddValue p s q (v : option V) :
  GetValue (AddValue p s v) q
  = if bool_decide (q <> EmptyString /\ runes q = runes s) then (v, true)
    else GetValue p q.
Proof.
  destruct (decide (s = EmptyString)) as [->|Hs].
  { rewrite bool_decide_eq_false_2; [done|].
    intros [Hq E]. by apply runes_nonempty in Hq. }
  destruct (decide (q = EmptyString)) as [->|Hq].
  { rewrite bool_decide_eq_false_2; [done|]. by intros [? _]. }
  rewrite !GetValue_includes, (len_nonzero q) by done.
  rewrite AddValue_nonempty by done. case_bool_decide as E.
  - destruct E as [_ E]. rewrite E.
    by rewrite (includes_addRunes_value _ p (runes s) v).
  - assert (Hne : runes q <> runes s) by (intros E'; by apply E).
    destruct (includes p (runes q)) as [lf|] eqn:Hin.
    + rewrite value_includes_addRunes;
        [by rewrite Hin|apply keeps_set_value|done|by rewrite Hin].
    + destruct (includes (addRunes _ p (runes s)) (runes q)) eqn:Hin'; [|done].
      exfalso.
      assert (Hn : includes (addRunes (fun lf : Trie V =>
                      mkTrie (leaf lf) v (children lf)) p (runes s)) (runes q)
                    <> None) by (by rewrite Hin').
      apply includes_addRunes_inv in Hn as [?|?];
        [congruence|done|apply keeps_set_value].
Qed.

(** *** Adding what is there *)

Lemma addRunes_id_member p r :
  includes p r <> None -> addRunes (fun lf => lf) p r = p.
Proof.
  revert p. induction r as [|r0 r IH]; intros p H; simpl in *.
  - destruct p as [l v m]. simpl in *. by destruct l.
  - destruct (children p !! r0) as [c|] eqn:Hc; [|done].
    rewrite IH by done. rewrite insert_id by done. by destruct p.
Qed.

Lemma matched_includes p r : includes p r <> None -> matched p r = length r.
Proof.
  revert p. induction r as [|r0 r IH]; intros p H; simpl in *; [done|].
  destruct (children p !! r0) as [c|]; [|done]. by rewrite IH.
Qed.

Lemma matched_le p r : (matched p r <= length r)%nat.
Proof.
  revert p. induction r as [|r0 r IH]; intros p; simpl; [done|].
  destruct (children p !! r0) as [c|]; [|lia]. specialize (IH c). lia.
Qed.

(** X3.  If the string is already present, no additional storage
    happens: [AddString] leaves the trie as it is, and [AddValue] creates
    no node. *)
Theorem insertion_of_member p s (v : option V) :
  Contains p s = true ->
  AddString p s = p /\ Size (AddValue p s v) = Size p.
Proof.
  intros [Hs Hin]%Contains_true. split.
  - rewrite AddString_nonempty by done. by apply addRunes_id_member.
  - rewrite AddValue_nonempty by done.
    pose proof (Size_addRunes _ p (runes s) (keeps_set_value v)) as H.
    rewrite matched_includes in H by done. lia.
Qed.

(** X4.  An insertion creates one node for each rune of the string
    beyond the leading runes for which the trie has nodes, [AddValue] as
    many as [AddString]; the number of nodes never goes down and goes up
    by the number of runes at most. *)
Theorem Size_after_insertion p s (v : option V) :
  (Size (AddString p s) + matched p (runes s)
   = Size p + RuneCountInString s)%nat
  /\ Size (AddValue p s v) = Size (AddString p s)
  /\ (Size p <= Size (AddString p s) <= Size p + RuneCountInString s)%nat.
Proof.
  unfold AddString, AddValue, RuneCountInString.
  pose proof (matched_le p (runes s)) as Hm.
  destruct (len s =? 0) eqn:E.
  - apply len_zero_iff in E as ->. simpl. lia.
  - pose proof (Size_addRunes _ p (runes s) keeps_id).
    pose proof (Size_addRunes _ p (runes s) (keeps_set_value v)). lia.
Qed.

(** *** The order of the additions *)

Lemma addRunes_comm p r t :
  addRunes (fun lf => lf) (addRunes (fun lf => lf) p r) t
  = addRunes (fun lf => lf) (addRunes (fun lf => lf) p t) r.
Proof.
  revert p t. induction r as [|r0 r IH]; intros p t.
  - by destruct t.
  - destruct t as [|t0 t]; [done|]. cbn [addRunes leaf value children].
    destruct (decide (r0 = t0)) as [->|Hne].
    + rewrite !lookup_insert_eq, !insert_insert_eq. by rewrite IH.
    + rewrite !lookup_insert_ne by done.
      by rewrite (insert_insert_ne _ r0 t0) by done.
Qed.

(** X5.  The trie [AddString] builds does not depend on the order in
    which the strings are added. *)
Theorem AddString_comm p s q :
  AddString (AddString p s) q = AddString (AddString p q) s.
Proof.
  unfold AddString. destruct (len s =? 0), (len q =? 0); try done.
  apply addRunes_comm.
Qed.

(** *** What a removal leaves *)

Lemma removeRunes_flag p r :
  (removeRunes p r).2
  = bool_decide (size (children (removeRunes p r).1) = 0%nat).
Proof.
  destruct r as [|r0 r]; [done|]. cbn [removeRunes].
  destruct (children p !! r0) as [child|]; [|done].
  by destruct (removeRunes child r) as [child' []].
Qed.

Lemma Size_zero p : Size p = 0%nat <-> size (children p) = 0%nat.
Proof.
  rewrite Size_unfold. split; [lia|]. intros E. rewrite E.
  apply map_size_empty_iff in E. by rewrite E, map_to_list_empty.
Qed.

Lemma Size_delete l v m (x : rune) c :
  m !! x = Some c ->
  (Size (mkTrie l v (delete x m)) + 1 + Size c = Size (mkTrie l v m))%nat.
Proof.
  intros H. rewrite <- (insert_delete_id m x c) at 2 by done.
  by rewrite (Size_insert_None _ _ _ _ c) by apply lookup_delete_eq.
Qed.

Lemma Size_removeRunes p r : (Size (removeRunes p r).1 <= Size p)%nat.
Proof.
  revert p. induction r as [|r0 r IH]; intros p.
  - cbn [removeRunes fst]. by rewrite (Size_children (mkTrie _ _ _) p).
  - cbn [removeRunes]. destruct (children p !! r0) as [child|] eqn:Hc; [|done].
    specialize (IH child).
    destruct (removeRunes child r) as [child' empty]. cbn [fst] in *.
    destruct p as [l v m]. cbn [leaf value children] in *. destruct empty.
    + pose proof (Size_delete l v m r0 child Hc). lia.
    + pose proof (Size_insert_Some l v m r0 child child' Hc). lia.
Qed.

(** X6.  After [Remove(s)] the string [s] is no member; [Remove]
    returns true exactly when the trie has no node left; and it creates
    no node. *)
Theorem Remove_result p s :
  Contains (Remove p s).1 s = false
  /\ ((Remove p s).2 = true <-> Size (Remove p s).1 = 0%nat)
  /\ (Size (Remove p s).1 <= Size p)%nat.
Proof.
  rewrite Size_zero. unfold Contains, Remove. destruct (len s =? 0).
  - split_and!; [done| |done]. simpl. by rewrite bool_decide_eq_true.
  - split_and!.
    + apply bool_decide_eq_false. intros H. apply H, includes_removeRunes.
    + by rewrite removeRunes_flag, bool_decide_eq_true.
    + apply Size_removeRunes.
Qed.

Lemma includes_children p t :
  t <> [] -> includes p t <> None -> size (children p) <> 0%nat.
Proof.
  intros Ht H E. apply map_size_empty_iff in E.
  destruct t as [|t0 t]; [done|]. simpl in H. by rewrite E, lookup_empty in H.
Qed.

Lemma includes_removeRunes_other p r t :
  includes p t <> None -> ~ t `prefix_of` r ->
  includes (removeRunes p r).1 t = includes p t.
Proof.
  revert p t. induction r as [|r0 r IH]; intros p t Hin Hpre.
  - destruct t as [|t0 t]; [|done]. destruct Hpre. apply prefix_nil.
  - destruct t as [|t0 t]; [destruct Hpre; apply prefix_nil|].
    cbn [removeRunes]. destruct (children p !! r0) as [child|] eqn:Hc; [|done].
    pose proof (removeRunes_flag child r) as Hflag.
    specialize (IH child t).
    destruct (removeRunes child r) as [child' empty]. simpl in *.
    destruct (decide (r0 = t0)) as [->|Hne].
    + rewrite Hc in Hin.
      assert (Hpre' : ~ t `prefix_of` r).
      { intros H. apply Hpre. by apply prefix_cons. }
      specialize (IH Hin Hpre').
      assert (empty = false) as ->.
      { rewrite Hflag. apply bool_decide_eq_false.
        apply (includes_children child' t).
        - intros ->. apply Hpre', prefix_nil.
        - by rewrite IH. }
      simpl. by rewrite lookup_insert_eq, Hc.
    + destruct empty; simpl.
      * by rewrite lookup_delete_ne.
      * by rewrite lookup_insert_ne.
Qed.

(** X7.  [Remove(s)] keeps, with its value, every member whose runes
    are not leading runes of [s]. *)
Theorem Remove_keeps_others p s q :
  Contains p q = true -> ~ runes q `prefix_of` runes s ->
  Contains (Remove p s).1 q = true
  /\ GetValue (Remove p s).1 q = GetValue p q.
Proof.
  intros [Hq Hin]%Contains_true Hpre.
  assert (E : includes (Remove p s).1 (runes q) = includes p (runes q)).
  { unfold Remove. destruct (len s =? 0); [done|].
    by apply includes_removeRunes_other. }
  split.
  - apply Contains_true. by rewrite E.
  - unfold GetValue. by rewrite E.
Qed.

Lemma includes_removeRunes_inv p r t :
  includes (removeRunes p r).1 t <> None ->
  includes p t <> None
  /\ value <$> includes (removeRunes p r).1 t = value <$> includes p t.
Proof.
  revert p t. induction r as [|r0 r IH]; intros p t.
  - by destruct t.
  - cbn [removeRunes]. destruct (children p !! r0) as [child|] eqn:Hc; [|done].
    specialize (IH child).
    destruct (removeRunes child r) as [child' empty]. cbn [fst].
    destruct t as [|t0 t].
    + simpl. by destruct (leaf p).
    + cbn [includes children]. destruct (decide (r0 = t0)) as [->|Hne].
      * rewrite Hc. destruct empty.
        -- by rewrite lookup_delete_eq.
        -- rewrite lookup_insert_eq. apply IH.
      * destruct empty.
        -- by rewrite lookup_delete_ne.
        -- by rewrite lookup_insert_ne.
Qed.

(** X8.  [Remove] adds nothing: a member afterwards was a member
    before, and has the value it had. *)
Theorem Remove_adds_nothing p s q :
  Contains (Remove p s).1 q = true ->
  Contains p q = true /\ GetValue (Remove p s).1 q = GetValue p q.
Proof.
  intros [Hq Hin]%Contains_true.
  assert (H : includes p (runes q) <> None
              /\ value <$> includes (Remove p s).1 (runes q)
                 = value <$> includes p (runes q)).
  { unfold Remove in *. destruct (len s =? 0); [done|].
    by apply includes_removeRunes_inv. }
  destruct H as [H1 H2]. split.
  - by apply Contains_true.
  - by rewrite !GetValue_includes, H2.
Qed.

(** *** Adding and removing *)

Lemma removeRunes_addRunes_NewTrie k r :
  keeps k -> removeRunes (addRunes k (@NewTrie V) r) r = (NewTrie, true).
Proof.
  intros Hk. induction r as [|r0 r IH].
  - simpl. by rewrite keeps_children.
  - cbn [addRunes removeRunes leaf value children NewTrie].
    rewrite lookup_empty, lookup_insert_eq.
    change (mkTrie false None ∅) with (@NewTrie V). rewrite IH.
    by rewrite delete_insert_eq, delete_empty.
Qed.

Lemma removeRunes_addRunes_fresh k p r :
  keeps k -> r <> [] -> matched p r = 0%nat ->
  removeRunes (addRunes k p r) r
  = (p, bool_decide (size (children p) = 0%nat)).
Proof.
  intros Hk Hr Hm. destruct r as [|r0 r]; [done|]. simpl in Hm.
  destruct (children p !! r0) as [c|] eqn:Hc; [done|].
  cbn [addRunes removeRunes leaf value children]. rewrite Hc, lookup_insert_eq.
  rewrite removeRunes_addRunes_NewTrie by done.
  rewrite delete_insert_eq, delete_id by done. by destruct p.
Qed.

(** X9.  Removing a string right after inserting it gives the trie
    back, when the trie had no node for the first rune of the string. *)
Theorem Remove_after_insertion p s (v : option V) :
  s <> EmptyString -> matched p (runes s) = 0%nat ->
  Remove (AddString p s) s = (p, bool_decide (size (children p) = 0%nat))
  /\ Remove (AddValue p s v) s = (p, bool_decide (size (children p) = 0%nat)).
Proof.
  intros Hs Hm. pose proof (runes_nonempty s Hs).
  rewrite AddString_nonempty, AddValue_nonempty by done.
  unfold Remove. rewrite len_nonzero by done.
  split; apply removeRunes_addRunes_fresh;
    [apply keeps_id| | |apply keeps_set_value| |]; done.
Qed.

(** *** The invariant of the operations *)

Lemma scalarb_scalar (x : rune) : scalarb x = true <-> scalar x.
Proof. unfold scalarb, scalar. lia. Qed.

Lemma map_fold_andb m :
  map_fold (fun x c rest => scalarb x && nodeOK c && rest) true m = true
  <-> childrenOK m.
Proof.
  unfold childrenOK. rewrite map_fold_foldr, map_Forall_to_list.
  induction (map_to_list m) as [|[i c] l IH]; simpl.
  - split; [constructor|done].
  - rewrite Forall_cons, !andb_true_iff, IH, scalarb_scalar. simpl. tauto.
Qed.

Lemma nodeOK_unfold c :
  nodeOK c = true
  <-> (size (children c) = 0%nat -> leaf c = true)
      /\ (leaf c = false -> value c = None)
      /\ childrenOK (children c).
Proof.
  destruct c as [l v m]. cbn [nodeOK leaf value children].
  rewrite !andb_true_iff, map_fold_andb, !orb_true_iff, negb_true_iff.
  rewrite bool_decide_eq_false, bool_decide_eq_true.
  destruct l; intuition congruence.
Qed.

Lemma wellKept_unfold p :
  wellKept p = true <-> leaf p = false /\ childrenOK (children p).
Proof.
  unfold wellKept. by rewrite andb_true_iff, map_fold_andb, negb_true_iff.
Qed.

Lemma nodeOK_addRunes_NewTrie k r :
  keeps k -> Forall scalar r -> nodeOK (addRunes k (@NewTrie V) r) = true.
Proof.
  intros Hk Hr. induction Hr as [|x r Hx Hr IH].
  - simpl addRunes. apply nodeOK_unfold.
    destruct (Hk (mkTrie true None ∅)) as [-> ->]. simpl.
    split_and!; [done|done|]. apply map_Forall_empty.
  - cbn [addRunes NewTrie leaf value children]. rewrite lookup_empty.
    apply nodeOK_unfold. cbn [leaf value children]. split_and!; [|done|].
    + intros E. apply map_size_empty_iff in E.
      by apply insert_non_empty in E.
    + apply map_Forall_insert_2; [done|apply map_Forall_empty].
Qed.

Lemma childrenOK_addRunes k p (x : rune) r :
  keeps k -> scalar x -> Forall scalar r ->
  (forall c, nodeOK c = true -> nodeOK (addRunes k c r) = true) ->
  childrenOK (children p) ->
  childrenOK (<[x := addRunes k (match children p !! x with
                                 | Some n => n
                                 | None => NewTrie
                                 end) r]> (children p)).
Proof.
  intros Hk H0 Hr IH Hch. apply map_Forall_insert_2; [|done]. split; [done|].
  destruct (children p !! x) as [n|] eqn:Hn.
  - apply IH. by apply (Hch x n Hn).
  - by apply nodeOK_addRunes_NewTrie.
Qed.

Lemma nodeOK_addRunes k c r :
  keeps k -> Forall scalar r -> nodeOK c = true ->
  nodeOK (addRunes k c r) = true.
Proof.
  intros Hk Hr. revert c. induction Hr as [|x r Hx Hr IH]; intros c Hc.
  - simpl addRunes. apply nodeOK_unfold in Hc as (_ & _ & Hch).
    apply nodeOK_unfold.
    by destruct (Hk (mkTrie true (value c) (children c))) as [-> ->].
  - cbn [addRunes]. apply nodeOK_unfold in Hc as (H1 & H2 & Hch).
    apply nodeOK_unfold. cbn [leaf value children]. split_and!; [|done|].
    + intros E. apply map_size_empty_iff in E.
      by apply insert_non_empty in E.
    + by apply childrenOK_addRunes.
Qed.

Lemma wellKept_addRunes k p r :
  keeps k -> Forall scalar r -> r <> [] -> wellKept p = true ->
  wellKept (addRunes k p r) = true.
Proof.
  intros Hk Hr Hne [Hl Hch]%wellKept_unfold.
  destruct Hr as [|x r Hx Hr]; [done|]. cbn [addRunes].
  apply wellKept_unfold. cbn [leaf children]. split; [done|].
  apply childrenOK_addRunes; [done..| |done].
  intros c. by apply nodeOK_addRunes.
Qed.

Lemma nodeOK_removeRunes c r :
  nodeOK c = true ->
  childrenOK (children (removeRunes c r).1)
  /\ ((removeRunes c r).2 = false -> nodeOK (removeRunes c r).1 = true).
Proof.
  revert c. induction r as [|r0 r IH]; intros c Hc.
  - pose proof Hc as (H1 & H2 & Hch)%nodeOK_unfold. cbn [removeRunes fst snd].
    split; [done|]. intros E%bool_decide_eq_false. by apply nodeOK_unfold.
  - pose proof Hc as (H1 & H2 & Hch)%nodeOK_unfold. cbn [removeRunes].
    destruct (children c !! r0) as [child|] eqn:Hchild; [|done].
    destruct (IH child) as [_ IH2]; [by apply (Hch r0 child Hchild)|].
    destruct (removeRunes child r) as [child' empty]. cbn [fst snd] in *.
    assert (Hch' : childrenOK (if empty then delete r0 (children c)
                               else <[r0:=child']> (children c))).
    { destruct empty.
      - by apply map_Forall_delete.
      - apply map_Forall_insert_2; [|done]. split; [|by apply IH2].
        by apply (Hch r0 child Hchild). }
    split; [done|]. intros E%bool_decide_eq_false.
    apply nodeOK_unfold. by cbn [leaf value children].
Qed.

Lemma wellKept_removeRunes p r :
  wellKept p = true -> wellKept (removeRunes p r).1 = true.
Proof.
  intros [Hl Hch]%wellKept_unfold. apply wellKept_unfold.
  destruct r as [|r0 r]; [done|]. cbn [removeRunes].
  destruct (children p !! r0) as [child|] eqn:Hchild; [|done].
  destruct (nodeOK_removeRunes child r) as [_ IH2];
    [by apply (Hch r0 child Hchild)|].
  destruct (removeRunes child r) as [child' empty]. cbn [fst snd] in *.
  split; [done|]. cbn [children]. destruct empty.
  - by apply map_Forall_delete.
  - apply map_Forall_insert_2; [|done]. split; [|by apply IH2].
    by apply (Hch r0 child Hchild).
Qed.

Lemma wellKept_call p (cl : Call V) :
  wellKept p = true -> wellKept (call p cl) = true.
Proof.
  intros Hp. destruct cl as [s|s v|s]; cbn [call];
    unfold AddString, AddValue, Remove;
    (destruct (len s =? 0) eqn:E; [done|]);
    assert (Hs : s <> EmptyString) by (by intros ->).
  - apply wellKept_addRunes;
      [apply keeps_id|apply runes_scalar|by apply runes_nonempty|done].
  - apply wellKept_addRunes;
      [apply keeps_set_value|apply runes_scalar|by apply runes_nonempty|done].
  - by apply wellKept_removeRunes.
Qed.

(** X11.  Whatever calls of [AddString], [AddValue] and [Remove] are
    made on a new trie, the trie is well kept: the root is no leaf, every
    node below it that has no children is a leaf, every node that is no
    leaf has the nil value, and every rune of the trie is a scalar
    value. *)
Theorem wellKept_calls (cs : list (Call V)) : wellKept (calls cs) = true.
Proof.
  unfold calls. assert (H : wellKept (@NewTrie V) = true) by done.
  revert H. generalize (@NewTrie V). induction cs as [|cl cs IH]; intros p Hp.
  - done.
  - simpl. by apply IH, wellKept_call.
Qed.

(** *** The members *)

Lemma leafPaths_unfold p :
  leafPaths p
  = (if leaf p then [[]] else [])
    ++ (map_to_list (children p) ≫= (fun ic => cons ic.1 <$> leafPaths ic.2)).
Proof.
  destruct p as [l v m]. simpl.
  by rewrite <- (map_fold_app_bind (fun i c => cons i <$> leafPaths c)).
Qed.

Lemma buildMembers_leafPaths p (prefix : string) :
  buildMembers p prefix
  = (fun path => prefix +:+ encodeRunes path) <$> leafPaths p.
Proof.
  revert prefix. induction p as [p IH] using Trie_child_ind. intros prefix.
  rewrite buildMembers_unfold, leafPaths_unfold, fmap_app. f_equal.
  - destruct (leaf p); [|done]. simpl.
    change (encodeRunes []) with EmptyString. by rewrite append_empty_r.
  - assert (Hall : forall ic, ic ∈ map_to_list (children p) ->
              forall pre : string,
                buildMembers ic.2 pre
                = (fun path => pre +:+ encodeRunes path) <$> leafPaths ic.2).
    { intros [i c] Hic%elem_of_map_to_list. by eapply IH. }
    induction (map_to_list (children p)) as [|[i c] l IHl]; [done|].
    rewrite !bind_cons, fmap_app. f_equal.
    + rewrite (Hall (i, c) (list_elem_of_here _ _)). simpl.
      rewrite <- list_fmap_compose. apply list_fmap_ext. intros _ path _.
      simpl. by rewrite encodeRunes_cons, append_assoc.
    + apply IHl. intros ic H. apply Hall. by right.
Qed.

Lemma elem_of_leafPaths p r : r ∈ leafPaths p <-> includes p r <> None.
Proof.
  revert r. induction p as [p IH] using Trie_child_ind. intros r.
  rewrite leafPaths_unfold, elem_of_app, list_elem_of_bind. split.
  - intros [H|([i c] & Hin & Hic)].
    + destruct (leaf p) eqn:Hl; [|by apply elem_of_nil in H].
      apply list_elem_of_singleton in H as ->. simpl. by rewrite Hl.
    + apply elem_of_map_to_list in Hic. simpl in *.
      apply list_elem_of_fmap in Hin as (t & -> & Ht). simpl. rewrite Hic.
      by apply (IH _ _ Hic).
  - destruct r as [|i t]; simpl.
    + destruct (leaf p); [|done]. intros _. left. by left.
    + destruct (children p !! i) as [c|] eqn:Hic; [|done]. intros H. right.
      exists (i, c). split; [|by apply elem_of_map_to_list].
      simpl. apply list_elem_of_fmap. exists t. split; [done|].
      by apply (IH _ _ Hic).
Qed.

Lemma NoDup_leafPaths p : NoDup (leafPaths p).
Proof.
  induction p as [p IH] using Trie_child_ind.
  rewrite leafPaths_unfold. apply NoDup_app. split_and!.
  - destruct (leaf p); [apply NoDup_singleton|apply NoDup_nil_2].
  - intros path H1 H2.
    destruct (leaf p); [|by apply elem_of_nil in H1].
    apply list_elem_of_singleton in H1 as ->.
    apply list_elem_of_bind in H2 as ([i c] & Hin & _).
    by apply list_elem_of_fmap in Hin as (? & ? & _).
  - apply NoDup_bind.
    + intros [i1 c1] [i2 c2] y H1 H2 Hy1 Hy2. simpl in *.
      apply list_elem_of_fmap in Hy1 as (? & -> & _).
      apply list_elem_of_fmap in Hy2 as (? & ? & _). simplify_eq.
      apply elem_of_map_to_list in H1, H2. by simplify_eq.
    + intros [i c] Hic%elem_of_map_to_list. simpl.
      apply NoDup_fmap_2; [|by eapply IH]. by intros ?? [=].
    + apply NoDup_map_to_list.
Qed.

Lemma Members_leafPaths p : Members p ≡ₚ encodeRunes <$> leafPaths p.
Proof.
  unfold Members. by rewrite merge_sort_Permutation, buildMembers_leafPaths.
Qed.

Lemma elem_of_Members_path p (x : string) :
  x ∈ Members p <-> exists r, includes p r <> None /\ x = encodeRunes r.
Proof.
  rewrite Members_leafPaths, list_elem_of_fmap.
  split; intros (path & H1 & H2); exists path.
  - by apply elem_of_leafPaths in H2.
  - by apply elem_of_leafPaths in H1.
Qed.

(** X12.  [Members] lists, in the order of their bytes, the encodings
    of the sequences of runes that lead from the root to a leaf. *)
Theorem Members_spec p (x : string) :
  (x ∈ Members p <-> exists r, includes p r <> None /\ x = encodeRunes r)
  /\ Sorted String.le (Members p).
Proof.
  split.
  - apply elem_of_Members_path.
  - apply Sorted_merge_sort, _.
Qed.

Lemma includes_scalar p r :
  childrenOK (children p) -> includes p r <> None -> Forall scalar r.
Proof.
  revert p. induction r as [|x r IH]; intros p Hch H; [constructor|].
  simpl in H. destruct (children p !! x) as [c|] eqn:Hc; [|done].
  destruct (Hch x c Hc) as [Hx Hok]. constructor; [done|].
  apply (IH c); [|done]. by apply nodeOK_unfold in Hok as (_ & _ & ?).
Qed.

(** X13.  In a well-kept trie the strings [Members] lists are the
    well-formed strings for which [Contains] returns true. *)
Theorem Members_Contains p (x : string) :
  wellKept p = true ->
  x ∈ Members p <-> wellFormed x /\ Contains p x = true.
Proof.
  intros [Hl Hch]%wellKept_unfold.
  rewrite elem_of_Members_path, Contains_true. split.
  - intros (path & Hin & ->).
    pose proof (includes_scalar p path Hch Hin) as Hsc.
    assert (Hne : path <> []).
    { intros ->. simpl in Hin. by rewrite Hl in Hin. }
    split_and!.
    + apply wellFormed_iff. by exists path.
    + by apply encodeRunes_nonempty.
    + by rewrite runes_encodeRunes.
  - intros (Hw & _ & Hin). by exists (runes x).
Qed.

Lemma leafPaths_nodePaths p :
  leaf p = false -> forall path, path ∈ leafPaths p -> path ∈ nodePaths p.
Proof.
  intros Hl path Hin%elem_of_leafPaths. apply elem_of_nodePaths. split.
  - intros ->. simpl in Hin. by rewrite Hl in Hin.
  - clear Hl. revert p Hin. induction path as [|x path IH]; intros p Hin.
    + by eexists.
    + simpl in *. destruct (children p !! x) as [c|]; [|done]. by apply IH.
Qed.

(** X14.  In a well-kept trie [Members] lists no string twice, and no
    more strings than [Size] counts nodes. *)
Theorem Members_NoDup p :
  wellKept p = true ->
  NoDup (Members p) /\ (length (Members p) <= Size p)%nat.
Proof.
  intros [Hl Hch]%wellKept_unfold. rewrite Members_leafPaths. split.
  - apply NoDup_fmap_2_strong; [|apply NoDup_leafPaths].
    intros a b Ha%elem_of_leafPaths Hb%elem_of_leafPaths E.
    apply (f_equal runes) in E.
    by rewrite !runes_encodeRunes in E by (by eapply includes_scalar).
  - rewrite length_fmap, Size_nodePaths. apply submseteq_length.
    apply NoDup_submseteq; [apply NoDup_leafPaths|].
    by apply leafPaths_nodePaths.
Qed.

Lemma nodeOK_has_leaf c : nodeOK c = true -> exists r, includes c r <> None.
Proof.
  induction c as [c IH] using Trie_child_ind.
  intros (H1 & _ & Hch)%nodeOK_unfold.
  destruct (map_choose_or_empty (children c)) as [(i & x & Hx)|E].
  - destruct (IH i x Hx) as [t Ht]; [by apply (Hch i x Hx)|].
    exists (i :: t). simpl. by rewrite Hx.
  - exists []. simpl. rewrite H1; [done|]. by rewrite E.
Qed.

(** X15.  A well-kept trie has no node exactly when it has no member:
    the pruning of [Remove] leaves no branch without a leaf. *)
Theorem Size_zero_Members p :
  wellKept p = true -> Size p = 0%nat <-> Members p = [].
Proof.
  intros [Hl Hch]%wellKept_unfold. split.
  - intros E. rewrite Size_unfold in E.
    assert (Hm : children p = ∅) by (apply map_size_empty_iff; lia).
    unfold Members. by rewrite buildMembers_unfold, Hl, Hm, map_to_list_empty.
  - intros E.
    destruct (map_choose_or_empty (children p)) as [(i & x & Hx)|Hm].
    + destruct (nodeOK_has_leaf x) as [t Ht]; [by apply (Hch i x Hx)|].
      assert (Hin : encodeRunes (i :: t) ∈ Members p).
      { apply elem_of_Members_path. exists (i :: t). split; [|done].
        simpl. by rewrite Hx. }
      rewrite E in Hin. by apply elem_of_nil in Hin.
    + by rewrite Size_unfold, Hm, map_to_list_empty.
Qed.

(** *** The value of a string added without one *)

Lemma value_addRunes_NewTrie r :
  value <$> includes (addRunes (fun lf => lf) (@NewTrie V) r) r = Some None.
Proof.
  induction r as [|x r IH]; [done|].
  cbn [addRunes includes NewTrie leaf value children].
  by rewrite lookup_empty, lookup_insert_eq.
Qed.

Lemma value_addRunes_child p (x : rune) r :
  childrenOK (children p) ->
  (forall c, nodeOK c = true -> includes c r = None ->
             value <$> includes (addRunes (fun lf => lf) c r) r = Some None) ->
  includes p (x :: r) = None ->
  value <$> includes (addRunes (fun lf => lf) p (x :: r)) (x :: r) = Some None.
Proof.
  intros Hch IH H. cbn [addRunes includes children] in *.
  rewrite lookup_insert_eq. destruct (children p !! x) as [n|] eqn:Hn.
  - apply IH; [|done]. by apply (Hch x n Hn).
  - apply value_addRunes_NewTrie.
Qed.

Lemma value_addRunes_new c r :
  nodeOK c = true -> includes c r = None ->
  value <$> includes (addRunes (fun lf => lf) c r) r = Some None.
Proof.
  revert c. induction r as [|x r IH]; intros c Hc H.
  - apply nodeOK_unfold in Hc as (_ & Hv & _). simpl in *.
    destruct (leaf c); [done|]. by rewrite Hv.
  - apply nodeOK_unfold in Hc as (_ & _ & Hch).
    by apply value_addRunes_child.
Qed.

(** X16.  In a well-kept trie a string that was no member has the nil
    value after [AddString]: no value of a string removed earlier comes
    back. *)
Theorem GetValue_AddString_new p s :
  wellKept p = true -> s <> EmptyString -> Contains p s = false ->
  GetValue (AddString p s) s = (None, true).
Proof.
  intros [Hl Hch]%wellKept_unfold Hs Hc.
  assert (Hin : includes p (runes s) = None).
  { destruct (includes p (runes s)) eqn:E; [|done].
    assert (Contains p s = true); [|congruence].
    apply Contains_true. split; [done|]. by rewrite E. }
  rewrite GetValue_includes, len_nonzero, AddString_nonempty by done.
  pose proof (runes_nonempty s Hs) as Hne.
  destruct (runes s) as [|x r]; [done|].
  rewrite value_addRunes_child; [done|done| |done].
  intros c. apply value_addRunes_new.
Qed.

(** *** The two searches for prefixes *)

(** X19.  On a well-formed string [AllSubstrings] returns the strings
    that [AllSubstringsAndValues] returns, each without its last rune. *)
Theorem AllSubstrings_drops_last_rune p q :
  wellFormed q ->
  exists sv vv,
    AllSubstringsAndValues p q = Some (sv, vv)
    /\ AllSubstrings p q
       = Some ((fun sub => encodeRunes (removelast (runes sub))) <$> sv).
Proof.
  intros Hq. pose proof (runes_scalar q) as Hsc. unfold wellFormed in Hq.
  rewrite <- Hq.
  rewrite AllSubstringsAndValues_prefixMatches, AllSubstrings_prefixMatches
    by done.
  eexists _, _. split; [done|]. f_equal.
  rewrite <- list_fmap_compose. apply list_fmap_ext.
  intros i [d v] Hi. simpl.
  apply list_elem_of_lookup_2, prefixMatches_sound in Hi
    as (n & lf & -> & _ & _ & _).
  rewrite runes_encodeRunes; [done|]. simpl. by apply Forall_take.
Qed.

(** *** The members after a removal *)

(** A node that is not pruned has a leaf that is not on the path of the
    runes removed. *)
Lemma removeRunes_kept_leaf c r :
  nodeOK c = true -> (removeRunes c r).2 = false ->
  exists t, includes c t <> None /\ ~ t `prefix_of` r.
Proof.
  revert c. induction r as [|r0 r IH]; intros c Hc;
    pose proof Hc as (_ & _ & Hch)%nodeOK_unfold.
  - cbn [removeRunes snd]. intros E%bool_decide_eq_false.
    destruct (map_choose_or_empty (children c)) as [(i & x & Hx)|Hm];
      [|by rewrite Hm in E].
    destruct (nodeOK_has_leaf x) as [t Ht]; [by apply (Hch i x Hx)|].
    exists (i :: t). split; [simpl; by rewrite Hx|].
    by intros [? [=]].
  - cbn [removeRunes]. destruct (children c !! r0) as [child|] eqn:Hchild.
    + specialize (IH child).
      destruct (removeRunes child r) as [child' empty]. cbn [fst snd] in *.
      destruct empty.
      * intros E%bool_decide_eq_false.
        destruct (map_choose_or_empty (delete r0 (children c)))
          as [(i & x & Hx)|Hm]; [|by rewrite Hm in E].
        apply lookup_delete_Some in Hx as [Hne Hx].
        destruct (nodeOK_has_leaf x) as [t Ht]; [by apply (Hch i x Hx)|].
        exists (i :: t). split; [simpl; by rewrite Hx|].
        intros [? [=]]. congruence.
      * intros _. destruct IH as (t & Ht & Hpre);
          [by apply (Hch r0 child Hchild)|done|].
        exists (r0 :: t). split; [simpl; by rewrite Hchild|].
        intros H. apply Hpre. by apply prefix_cons_inv_2 in H.
    + cbn [snd]. intros E%bool_decide_eq_false.
      destruct (map_choose_or_empty (children c)) as [(i & x & Hx)|Hm];
        [|by rewrite Hm in E].
      destruct (nodeOK_has_leaf x) as [t Ht]; [by apply (Hch i x Hx)|].
      exists (i :: t). split; [simpl; by rewrite Hx|].
      intros [? [=]]. congruence.
Qed.

Lemma includes_removeRunes_prefix c r t :
  childrenOK (children c) ->
  includes (removeRunes c r).1 t <> None -> t <> [] ->
  t `prefix_of` r -> t <> r ->
  exists u, includes c u <> None /\ t `prefix_of` u /\ ~ u `prefix_of` r.
Proof.
  revert c t. induction r as [|r0 r IH]; intros c t Hch Hin Hne Hpre Hr.
  - by apply prefix_nil_inv in Hpre.
  - destruct t as [|t0 t]; [done|].
    pose proof (prefix_cons_inv_1 _ _ _ _ Hpre) as ->.
    apply prefix_cons_inv_2 in Hpre.
    cbn [removeRunes] in Hin.
    destruct (children c !! r0) as [child|] eqn:Hchild;
      [|by simpl in Hin; rewrite Hchild in Hin].
    destruct (Hch r0 child Hchild) as [_ Hok].
    pose proof (removeRunes_kept_leaf child r Hok) as Hkept.
    specialize (IH child t).
    destruct (removeRunes child r) as [child' empty]. cbn [fst snd] in *.
    destruct empty; cbn [includes children] in Hin;
      [by rewrite lookup_delete_eq in Hin|].
    rewrite lookup_insert_eq in Hin.
    destruct t as [|t1 t].
    + destruct Hkept as (u & Hu & Hpu); [done|].
      exists (r0 :: u). split_and!.
      * simpl. by rewrite Hchild.
      * apply prefix_cons, prefix_nil.
      * intros H. apply Hpu. by apply prefix_cons_inv_2 in H.
    + destruct IH as (u & Hu & Hpu & Hnu); [|done|done|done|congruence|].
      { by apply nodeOK_unfold in Hok as (_ & _ & ?). }
      exists (r0 :: u). split_and!.
      * simpl. by rewrite Hchild.
      * by apply prefix_cons.
      * intros H. apply Hnu. by apply prefix_cons_inv_2 in H.
Qed.

Lemma includes_removeRunes_kept c r t u :
  includes c t <> None -> t <> r ->
  includes c u <> None -> t `prefix_of` u -> ~ u `prefix_of` r ->
  includes (removeRunes c r).1 t <> None.
Proof.
  revert c t u. induction r as [|r0 r IH]; intros c t u Ht Hne Hu Htu Hur.
  - destruct t as [|t0 t]; [done|]. done.
  - destruct t as [|t0 t].
    + cbn [removeRunes]. destruct (children c !! r0) as [child|]; [|done].
      destruct (removeRunes child r) as [child' empty]. simpl in *.
      by destruct (leaf c).
    + destruct u as [|u0 u]; [by apply prefix_nil_inv in Htu|].
      pose proof (prefix_cons_inv_1 _ _ _ _ Htu) as ->.
      apply prefix_cons_inv_2 in Htu.
      destruct (decide (u0 = r0)) as [->|Hx].
      * cbn [removeRunes]. cbn [includes] in Ht, Hu.
        destruct (children c !! r0) as [child|] eqn:Hchild; [|done].
        assert (Hur' : ~ u `prefix_of` r).
        { intros H. apply Hur. by apply prefix_cons. }
        pose proof (includes_removeRunes_other child r u Hu Hur') as Hsame.
        pose proof (removeRunes_flag child r) as Hflag.
        specialize (IH child t u).
        destruct (removeRunes child r) as [child' empty]. cbn [fst snd] in *.
        assert (empty = false) as ->.
        { rewrite Hflag. apply bool_decide_eq_false.
          apply (includes_children child' u); [|by rewrite Hsame].
          intros ->. apply Hur', prefix_nil. }
        cbn [includes children]. rewrite lookup_insert_eq.
        apply IH; [done|congruence|done..].
      * rewrite includes_removeRunes_other; [done..|].
        intros H. by apply prefix_cons_inv_1 in H.
Qed.

(** X10.  The members after [Remove(s)], in a well-kept trie: a string
    is a member exactly when it was one, does not read as the runes of
    [s], and it or a member that goes on beyond it is not made of leading
    runes of [s].  So a member made of leading runes of [s] is lost,
    whether [s] was a member or not, unless another member that does not
    lead to [s] goes through its node. *)
Theorem Contains_after_Remove p s q :
  wellKept p = true ->
  Contains (Remove p s).1 q = true
  <-> Contains p q = true /\ runes q <> runes s
      /\ exists u : string,
          Contains p u = true /\ runes q `prefix_of` runes u
          /\ ~ runes u `prefix_of` runes s.
Proof.
  intros [Hl Hch]%wellKept_unfold. rewrite !Contains_true. split.
  - intros [Hq Hin].
    assert (Hs : Remove p s = removeRunes p (runes s)
                 \/ (s = EmptyString /\ (Remove p s).1 = p)).
    { unfold Remove. destruct (len s =? 0) eqn:E; [right|by left].
      by apply len_zero_iff in E as ->. }
    pose proof (runes_nonempty q Hq) as Hqne.
    assert (Hu : includes p (runes q) <> None /\ runes q <> runes s
                 /\ exists u, includes p u <> None /\ runes q `prefix_of` u
                              /\ ~ u `prefix_of` runes s).
    { destruct Hs as [Hs|[-> Hs]].
      - rewrite Hs in Hin.
        destruct (includes_removeRunes_inv p (runes s) (runes q) Hin) as [H1 _].
        assert (H2 : runes q <> runes s).
        { intros E. rewrite E in Hin. by rewrite includes_removeRunes in Hin. }
        split_and!; [done..|].
        destruct (decide (runes q `prefix_of` runes s)) as [Hpre|Hpre].
        + by apply (includes_removeRunes_prefix p (runes s) (runes q)).
        + by exists (runes q).
      - rewrite Hs in Hin. rewrite runes_empty. split_and!; [done..|].
        exists (runes q). split_and!; [done..|].
        by intros ?%prefix_nil_inv. }
    destruct Hu as (H1 & H2 & u & Hu & Hqu & Hus). split_and!; [done..|].
    pose proof (includes_scalar p u Hch Hu) as Hsc.
    exists (encodeRunes u). rewrite Contains_true, runes_encodeRunes by done.
    split_and!; [|done..]. apply encodeRunes_nonempty; [done|].
    intros ->. apply Hus, prefix_nil.
  - intros ((Hq & Hin) & Hne & u & (Hu & Hinu)%Contains_true & Hqu & Hus).
    split; [done|]. unfold Remove. destruct (len s =? 0); [done|].
    by apply (includes_removeRunes_kept p (runes s) (runes q) (runes u)).
Qed.

End laws.

(** *** Runs of the theorems that have hypotheses *)

Lemma insertion_of_member_witness :
  let p := AddString (@NewTrie Z) "hen" in
  Contains p "hen" = true
  /\ AddString p "hen" = p /\ Size (AddValue p "hen" (Some 2)) = Size p.
Proof.
  intros p. assert (H : Contains p "hen" = true) by reflexivity.
  split; [exact H|]. exact (insertion_of_member p "hen" (Some 2) H).
Defined.

Lemma Remove_keeps_others_witness :
  let p := AddValue (AddString (@NewTrie Z) "hen") "hyph" (Some 3) in
  Contains p "hyph" = true /\ ~ runes "hyph" `prefix_of` runes "hen"
  /\ Contains (Remove p "hen").1 "hyph" = true
  /\ GetValue (Remove p "hen").1 "hyph" = GetValue p "hyph".
Proof.
  intros p. assert (H1 : Contains p "hyph" = true) by reflexivity.
  assert (H2 : ~ runes "hyph" `prefix_of` runes "hen").
  { intros [k Hk]. vm_compute in Hk. discriminate Hk. }
  split; [exact H1|]. split; [exact H2|].
  exact (Remove_keeps_others p "hen" "hyph" H1 H2).
Defined.

Lemma Remove_adds_nothing_witness :
  let p := AddValue (AddString (@NewTrie Z) "hen") "hyph" (Some 3) in
  Contains (Remove p "hen").1 "hyph" = true
  /\ Contains p "hyph" = true
  /\ GetValue (Remove p "hen").1 "hyph" = GetValue p "hyph".
Proof.
  intros p.
  assert (H : Contains (Remove p "hen").1 "hyph" = true) by reflexivity.
  split; [exact H|]. exact (Remove_adds_nothing p "hen" "hyph" H).
Defined.

Lemma Remove_after_insertion_witness :
  let p := AddString (@NewTrie Z) "hyph" in
  "ab" <> EmptyString /\ matched p (runes "ab") = 0%nat
  /\ Remove (AddString p "ab") "ab"
     = (p, bool_decide (size (children p) = 0%nat))
  /\ Remove (AddValue p "ab" (Some 1)) "ab"
     = (p, bool_decide (size (children p) = 0%nat)).
Proof.
  intros p. assert (H1 : "ab" <> EmptyString) by discriminate.
  assert (H2 : matched p (runes "ab") = 0%nat) by reflexivity.
  split; [exact H1|]. split; [exact H2|].
  exact (Remove_after_insertion p "ab" (Some 1) H1 H2).
Defined.

Lemma Contains_after_Remove_witness :
  let p := AddString (AddString (AddString (@NewTrie Z) "a") "ab") "ac" in
  wellKept p = true
  /\ (Contains (Remove p "ab").1 "a" = true
      <-> Contains p "a" = true /\ runes "a" <> runes "ab"
          /\ exists u : string,
              Contains p u = true /\ runes "a" `prefix_of` runes u
              /\ ~ runes u `prefix_of` runes "ab").
Proof.
  intros p. assert (H : wellKept p = true) by reflexivity.
  split; [exact H|]. exact (Contains_after_Remove p "ab" "a" H).
Defined.

Lemma Members_Contains_witness :
  wellKept hyphTrie = true
  /\ ("hena" ∈ Members hyphTrie
      <-> wellFormed "hena" /\ Contains hyphTrie "hena" = true).
Proof.
  assert (H : wellKept hyphTrie = true) by reflexivity.
  split; [exact H|]. exact (Members_Contains hyphTrie "hena" H).
Defined.

Lemma Members_NoDup_witness :
  wellKept hyphTrie = true
  /\ NoDup (Members hyphTrie)
  /\ (length (Members hyphTrie) <= Size hyphTrie)%nat.
Proof.
  assert (H : wellKept hyphTrie = true) by reflexivity.
  split; [exact H|]. exact (Members_NoDup hyphTrie H).
Defined.

Lemma Size_zero_Members_witness :
  let p := (Remove (AddString (@NewTrie Z) "hen") "hen").1 in
  wellKept p = true /\ (Size p = 0%nat <-> Members p = []).
Proof.
  intros p. assert (H : wellKept p = true) by reflexivity.
  split; [exact H|]. exact (Size_zero_Members p H).
Defined.

Lemma GetValue_AddString_new_witness :
  let p := (Remove (AddValue (AddString (@NewTrie Z) "hena") "hen" (Some 2))
                   "hen").1 in
  wellKept p = true /\ "hen" <> EmptyString /\ Contains p "hen" = false
  /\ GetValue (AddString p "hen") "hen" = (None, true).
Proof.
  intros p. assert (H1 : wellKept p = true) by reflexivity.
  assert (H2 : "hen" <> EmptyString) by discriminate.
  assert (H3 : Contains p "hen" = false) by reflexivity.
  split_and!; [exact H1|exact H2|exact H3|].
  exact (GetValue_AddString_new p "hen" H1 H2 H3).
Defined.

Lemma AllSubstringsAndValues_correct_witness :
  let cps := runes "henation" in
  Forall scalar cps
  /\ exists sv vv,
      AllSubstringsAndValues hyphTrie (encodeRunes cps) = Some (sv, vv)
      /\ length sv = length vv.
Proof.
  intros cps.
  assert (H : Forall scalar cps).
  { subst cps.
    let l := eval vm_compute in (runes "henation") in
    change (runes "henation") with l.
    repeat (constructor;
            [unfold scalar, MaxRune, surrogateMin, surrogateMax; lia|]).
    constructor. }
  split; [exact H|].
  destruct (AllSubstringsAndValues_correct hyphTrie cps H)
    as (sv & vv & H1 & H2 & _).
  by exists sv, vv.
Defined.

Lemma AllSubstrings_drops_last_rune_witness :
  wellFormed "henation"
  /\ exists sv vv,
      AllSubstringsAndValues hyphTrie "henation" = Some (sv, vv)
      /\ AllSubstrings hyphTrie "henation"
         = Some ((fun sub => encodeRunes (removelast (runes sub))) <$> sv).
Proof.
  assert (H : wellFormed "henation") by reflexivity.
  split; [exact H|]. exact (AllSubstrings_drops_last_rune hyphTrie "henation" H).
Defined.

End trie_laws.

(** ** Further properties of [ValueTrie] *)

Module valuetrie_laws.
Import gostring utf8 goiter valuetrie samples gostring_props utf8_props.
Import valuetrie_props.

(** *** Membership after an addition *)

Lemma vt_includes_addRunes (p : ValueTrie) (r : list rune) (iter : list Z) :
  includes (addRunes p r iter) r = true.
Proof.
  revert p iter. induction r as [|x r IH]; intros p iter; [done|].
  cbn [addRunes]. destruct (recv iter) as [val iter'].
  cbn [includes children]. by rewrite lookup_insert_eq.
Qed.

Lemma vt_includes_addRunes_mono (p : ValueTrie) (r : list rune)
      (iter : list Z) (t : list rune) :
  includes p t = true -> includes (addRunes p r iter) t = true.
Proof.
  revert p iter t. induction r as [|x r IH]; intros p iter t H.
  - by destruct t.
  - cbn [addRunes]. destruct (recv iter) as [val iter'].
    destruct t as [|y t]; [done|]. cbn [includes children] in *.
    destruct (decide (x = y)) as [->|Hne].
    + rewrite lookup_insert_eq. destruct (children p !! y); [|done].
      by apply IH.
    + by rewrite lookup_insert_ne.
Qed.

Lemma vt_includes_addRunes_inv (p : ValueTrie) (r : list rune)
      (iter : list Z) (t : list rune) :
  includes (addRunes p r iter) t = true -> includes p t = true \/ t = r.
Proof.
  revert p iter t. induction r as [|x r IH]; intros p iter t.
  - destruct t as [|y t]; [by right|by left].
  - cbn [addRunes]. destruct (recv iter) as [val iter'].
    destruct t as [|y t]; [by left|]. cbn [includes children].
    destruct (decide (x = y)) as [->|Hne].
    + rewrite lookup_insert_eq. intros [H| ->]%IH; [|by right]. left.
      destruct (children p !! y); [done|]. by destruct t.
    + rewrite lookup_insert_ne by done. by left.
Qed.

Lemma vt_Contains_true (p : ValueTrie) (s : string) :
  Contains p s = true <-> s <> EmptyString /\ includes p (runes s) = true.
Proof.
  unfold Contains. destruct (len s =? 0) eqn:E.
  - apply len_zero_iff in E. split; [done|]. by intros [? _].
  - split; [|by intros [_ ?]]. intros H. split; [|done]. by intros ->.
Qed.

Lemma vt_Contains_addRunes (p : ValueTrie) (r : list rune) (iter : list Z)
      (q : string) :
  Contains (addRunes p r iter) q = true
  <-> Contains p q = true \/ (q <> EmptyString /\ runes q = r).
Proof.
  rewrite !vt_Contains_true. split.
  - intros [Hq [H|H]%vt_includes_addRunes_inv]; [by left|by right].
  - intros [[Hq H]|[Hq <-]]; (split; [done|]).
    + by apply vt_includes_addRunes_mono.
    + apply vt_includes_addRunes.
Qed.

Lemma sent_total (s : string) : is_Some (sent s).
Proof.
  apply sendValues_total. intros pos r Hin.
  by apply rangeFrom_pos in Hin as [? _].
Qed.

(** X22.  After [Add(s, v)] the members are those there were and the
    non-empty strings that read as the runes of [s]; [AddPatternString(s)]
    returns for every string, and after it the members are those there
    were and the non-empty strings that read as the runes of [s] that are
    no digits. *)
Theorem Contains_after_Add (p : ValueTrie) (s q : string) (v : list Z) :
  (Contains (Add p s v) q = true
   <-> Contains p q = true \/ (q <> EmptyString /\ runes q = runes s))
  /\ exists p', AddPatternString p s = Some p'
       /\ (Contains p' q = true
           <-> Contains p q = true
               \/ (q <> EmptyString /\ runes q = runes (dropDigits s))).
Proof.
  split.
  - unfold Add. destruct (len s =? 0) eqn:E; [|apply vt_Contains_addRunes].
    apply len_zero_iff in E as ->. split; [by left|].
    intros [H|[Hq E]]; [done|]. by apply runes_nonempty in Hq.
  - unfold AddPatternString. fold (sent s).
    destruct (sent_total s) as [iter ->].
    eexists. split; [done|]. apply vt_Contains_addRunes.
Qed.

(** *** The weights after an addition *)

Lemma pathValues_addRunes (p : ValueTrie) (r : list rune) (iter : list Z)
      (path : list rune) (w : list Z) :
  pathValues p path = Some w -> pathValues (addRunes p r iter) path = Some w.
Proof.
  revert p iter path w. induction r as [|x r IH]; intros p iter path w H.
  - by destruct path.
  - cbn [addRunes]. destruct (recv iter) as [val iter'].
    destruct path as [|y path]; [done|]. cbn [pathValues children] in *.
    destruct (decide (x = y)) as [->|Hne].
    + rewrite lookup_insert_eq. destruct (children p !! y) as [c|]; [|done].
      rewrite value_addRunes.
      destruct (pathValues c path) as [w'|] eqn:Hw; [|done].
      by rewrite (IH _ _ _ _ Hw).
    + by rewrite lookup_insert_ne.
Qed.

(** X23.  [Add] changes no weight: along every path there was, the
    weights are those there were, along the path of the string added
    too.  The values given for runes that have nodes are not stored. *)
Theorem Add_keeps_weights (p : ValueTrie) (s : string) (v : list Z)
        (path : list rune) (w : list Z) :
  pathValues p path = Some w -> pathValues (Add p s v) path = Some w.
Proof.
  intros H. unfold Add. destruct (len s =? 0); [done|].
  by apply pathValues_addRunes.
Qed.

Lemma recvN_take (n : nat) (iter : list Z) :
  recvN n iter = take n iter ++ replicate (n - length iter) 0.
Proof.
  revert iter. induction n as [|n IH]; intros iter; [done|].
  destruct iter as [|val iter]; cbn [recvN recv]; rewrite IH; [|done].
  by rewrite take_nil, Nat.sub_0_r.
Qed.

(** X24.  [Add(s, v)] on a trie without a node for the first rune of
    [s]: the runes of [s] carry the values of [v] in order, zero where [v]
    has no value left; values beyond the runes are not used. *)
Theorem Add_fresh (p : ValueTrie) (s : string) (v : list Z) :
  s <> EmptyString -> nodeAt p (take 1 (runes s)) = None ->
  pathValues (Add p s v) (runes s)
  = Some (take (RuneCountInString s) v
          ++ replicate (RuneCountInString s - length v) 0).
Proof.
  intros Hs Hn. unfold Add, RuneCountInString. rewrite len_nonzero by done.
  rewrite <- recvN_take. pose proof (runes_nonempty s Hs) as Hne.
  destruct (runes s) as [|x r]; [done|]. simpl in Hn.
  destruct (children p !! x) as [c|] eqn:Hc; [done|].
  cbn [addRunes recvN length]. destruct (recv v) as [val iter'].
  cbn [pathValues children]. rewrite lookup_insert_eq, Hc.
  by rewrite pathValues_addRunes_fresh, value_addRunes.
Qed.

(** *** Removal *)

Lemma vt_includes_removeRunes (p : ValueTrie) (r : list rune) :
  includes (removeRunes p r).1 r = false.
Proof.
  revert p. induction r as [|x r IH]; intros p; [done|].
  cbn [removeRunes]. destruct (children p !! x) as [child|] eqn:Hc.
  - specialize (IH child). destruct (removeRunes child r) as [child' empty].
    destruct empty; simpl.
    + by rewrite lookup_delete_eq.
    + by rewrite lookup_insert_eq.
  - simpl. by rewrite Hc.
Qed.

Lemma vt_removeRunes_flag (p : ValueTrie) (r : list rune) :
  (removeRunes p r).2
  = bool_decide (size (children (removeRunes p r).1) = 0%nat).
Proof.
  destruct r as [|x r]; [done|]. cbn [removeRunes].
  destruct (children p !! x) as [child|]; [|done].
  by destruct (removeRunes child r) as [child' []].
Qed.

Lemma vt_Size_zero (p : ValueTrie) :
  Size p = 0%nat <-> size (children p) = 0%nat.
Proof.
  destruct p as [v l m]. cbn [Size children]. split; [lia|]. intros E.
  rewrite E. apply map_size_empty_iff in E. by rewrite E, map_fold_empty.
Qed.

(** X25.  After [Remove(s)] the string [s] is no member, and [Remove]
    returns true exactly when the trie has no node left. *)
Theorem ValueTrie_Remove_result (p : ValueTrie) (s : string) :
  Contains (Remove p s).1 s = false
  /\ ((Remove p s).2 = true <-> Size (Remove p s).1 = 0%nat).
Proof.
  rewrite vt_Size_zero. unfold Contains, Remove. destruct (len s =? 0).
  - split; [done|]. simpl. by rewrite bool_decide_eq_true.
  - split; [apply vt_includes_removeRunes|].
    by rewrite vt_removeRunes_flag, bool_decide_eq_true.
Qed.

Lemma vt_includes_removeRunes_inv (p : ValueTrie) (r t : list rune) :
  includes (removeRunes p r).1 t = true -> includes p t = true.
Proof.
  revert p t. induction r as [|x r IH]; intros p t.
  - by destruct t.
  - cbn [removeRunes]. destruct (children p !! x) as [child|] eqn:Hc; [|done].
    specialize (IH child).
    destruct (removeRunes child r) as [child' empty]. cbn [fst] in *.
    destruct t as [|y t]; [done|]. cbn [includes children].
    destruct (decide (x = y)) as [->|Hne].
    + rewrite Hc. destruct empty.
      * by rewrite lookup_delete_eq.
      * rewrite lookup_insert_eq. apply IH.
    + destruct empty.
      * by rewrite lookup_delete_ne.
      * by rewrite lookup_insert_ne.
Qed.

Lemma value_removeRunes (p : ValueTrie) (r : list rune) :
  value (removeRunes p r).1 = value p.
Proof.
  destruct r as [|x r]; [done|]. cbn [removeRunes].
  destruct (children p !! x); [|done].
  by destruct (removeRunes _ r) as [? []].
Qed.

Lemma pathValues_removeRunes (p : ValueTrie) (r path : list rune)
      (w : list Z) :
  pathValues (removeRunes p r).1 path = Some w -> pathValues p path = Some w.
Proof.
  revert p path w. induction r as [|x r IH]; intros p path w.
  - by destruct path.
  - cbn [removeRunes]. destruct (children p !! x) as [child|] eqn:Hc; [|done].
    specialize (IH child). pose proof (value_removeRunes child r) as Hv.
    destruct (removeRunes child r) as [child' empty]. cbn [fst] in *.
    destruct path as [|y path]; [done|]. cbn [pathValues children].
    destruct (decide (x = y)) as [->|Hne].
    + rewrite Hc. destruct empty.
      * by rewrite lookup_delete_eq.
      * rewrite lookup_insert_eq, Hv.
        destruct (pathValues child' path) as [w'|] eqn:Hw; [|done].
        by rewrite (IH _ _ Hw).
    + destruct empty.
      * by rewrite lookup_delete_ne.
      * by rewrite lookup_insert_ne.
Qed.

Lemma pathValues_includes (p : ValueTrie) (t : list rune) :
  includes p t = true -> is_Some (pathValues p t).
Proof.
  revert p. induction t as [|x t IH]; intros p H; [by eexists|].
  cbn [includes pathValues] in *. destruct (children p !! x) as [c|]; [|done].
  destruct (IH c H) as [w ->]. by eexists.
Qed.

(** X26.  [Remove] adds nothing and changes no weight: a member
    afterwards was a member before, with the same weights along its
    path. *)
Theorem ValueTrie_Remove_adds_nothing (p : ValueTrie) (s q : string) :
  Contains (Remove p s).1 q = true ->
  Contains p q = true
  /\ pathValues (Remove p s).1 (runes q) = pathValues p (runes q).
Proof.
  unfold Remove. destruct (len s =? 0); [done|].
  intros [Hq H]%vt_Contains_true. split.
  - apply vt_Contains_true. split; [done|].
    by eapply vt_includes_removeRunes_inv.
  - destruct (pathValues_includes _ _ H) as [w Hw].
    by rewrite Hw, (pathValues_removeRunes _ _ _ _ Hw).
Qed.

(** *** The empty string and the new trie *)

(** X27.  The operations on the empty string and on a new trie:
    [Add] and [Remove] leave the trie as it is for the empty string and
    [Contains] returns false for it; a new trie has no node and no
    member, and removing from it changes nothing. *)
Theorem ValueTrie_empty_inputs (p : ValueTrie) (v : list Z) (q : string)
        (includeZeroes : bool) :
  Add p EmptyString v = p
  /\ Contains p EmptyString = false
  /\ Remove p EmptyString = (p, bool_decide (size (children p) = 0%nat))
  /\ Size NewValueTrie = 0%nat
  /\ Members NewValueTrie = []
  /\ PatternMembers NewValueTrie includeZeroes = []
  /\ Contains NewValueTrie q = false
  /\ Remove NewValueTrie q = (NewValueTrie, true).
Proof.
  split_and!; try done.
  - unfold Contains. destruct (len q =? 0); [done|]. by destruct (runes q).
  - unfold Remove. destruct (len q =? 0); [done|]. by destruct (runes q).
Qed.

(** *** Digits at the head of a pattern *)

Lemma Members_leaf (p : ValueTrie) :
  leaf p = true -> EmptyString ∈ Members p.
Proof.
  intros Hl. unfold Members. rewrite merge_sort_Permutation.
  destruct p as [v l m]. cbn in Hl. subst l. cbn [buildMembers leaf].
  apply elem_of_app. left. by left.
Qed.

(** X28.  Digits at the head of a pattern change nothing of what is
    stored.  A pattern of digits only, the empty pattern included, makes
    the root a leaf and nothing else: [Members] then lists the empty
    string, for which [Contains] returns false. *)
Theorem AddPatternString_digits (p : ValueTrie) (d s : string) :
  allDigits d = true ->
  let p' := mkValueTrie (value p) true (children p) in
  AddPatternString p (d +:+ s) = AddPatternString p s
  /\ AddPatternString p d = Some p'
  /\ EmptyString ∈ Members p' /\ Contains p' EmptyString = false.
Proof.
  intros Hd p'.
  assert (H : forall t, AddPatternString p (d +:+ t) = AddPatternString p t).
  { intros t. induction d as [|c d IH]; [done|].
    cbn [allDigits] in Hd. apply andb_true_iff in Hd as [Hc Hd].
    rewrite append_cons, AddPatternString_leading_digit; [by apply IH|].
    unfold isDigit in Hc. lia. }
  split_and!; [apply H| |by apply Members_leaf|done].
  by rewrite <- (append_empty_r d), H.
Qed.

(** *** The runes stored *)

Lemma filter_dropDigits (l : list rune) :
  Forall scalar l ->
  filter (fun r => 0 <= r)
         ((fun rune => if (rune0 <=? rune) && (rune <=? rune9) then -1 else rune)
            <$> l)
  = filter (fun r => isDigit r = false) l.
Proof.
  induction 1 as [|x l Hx Hl IH]; [done|]. rewrite fmap_cons.
  unfold isDigit at 1. destruct ((rune0 <=? x) && (x <=? rune9)) eqn:E.
  - rewrite filter_cons_False by lia. rewrite filter_cons_False; [done|].
    unfold isDigit. by rewrite E.
  - destruct Hx as [Hx _]. rewrite filter_cons_True by lia.
    rewrite filter_cons_True; [by rewrite IH|]. unfold isDigit. by rewrite E.
Qed.

Lemma runes_dropDigits (s : string) :
  runes (dropDigits s) = filter (fun r => isDigit r = false) (runes s).
Proof.
  unfold dropDigits, Map. rewrite filter_dropDigits by apply runes_scalar.
  apply runes_encodeRunes, Forall_forall. intros x [_ Hx]%list_elem_of_filter.
  revert x Hx. apply Forall_forall, runes_scalar.
Qed.

(** *** The weight of a rune of more than one byte *)

Lemma Encode_second_byte (x : rune) :
  scalar x -> 0x80 <= x ->
  exists c0 c1 tail,
    EncodeRune x = String c0 (String c1 tail) /\ 0x80 <= byteVal c1.
Proof.
  intros [Hx Hs] Hhi. unfold EncodeRune, encode3.
  unfold MaxRune, surrogateMin, surrogateMax in *.
  repeat case_match; try lia;
    do 3 eexists; (split; [reflexivity|]); rewrite cont_byte; divmod.
Qed.

(** X29.  The digit that follows a rune of more than one byte is not
    taken for its weight: the byte [AddPatternString] looks at is the
    second byte of the rune, so on a new trie the rune is stored with the
    weight zero whatever follows it. *)
Theorem AddPatternString_multibyte (x : rune) (rest : string) :
  scalar x -> 0x80 <= x ->
  exists p', AddPatternString NewValueTrie (EncodeRune x +:+ rest) = Some p'
             /\ pathValues p' [x] = Some [0].
Proof.
  intros Hx Hhi.
  destruct (Encode_second_byte x Hx Hhi) as (c0 & c1 & tail & E & Hc1).
  set (s := EncodeRune x +:+ rest).
  assert (Hr : rangeString s = (0, x) :: rangeFrom rest (0 + RuneLen x) 0).
  { by apply rangeFrom_Encode. }
  assert (Hd : isDigit x = false).
  { unfold isDigit. change rune9 with 57. lia. }
  assert (Hlen : (0 <? len s - 1) = true).
  { unfold s. rewrite E, !append_cons. unfold len. cbn [String.length].
    apply Z.ltb_lt. lia. }
  assert (Hnext : index s 1 = Some (byteVal c1)).
  { unfold s. rewrite E, !append_cons. unfold index.
    destruct ((1 <? 0) || _) eqn:Eb; [|done]. exfalso.
    apply orb_true_iff in Eb as [Eb|Eb]; [lia|].
    apply Z.leb_le in Eb. revert Eb. unfold len. cbn [String.length]. lia. }
  destruct (sendValues_total s (rangeFrom rest (0 + RuneLen x) 0))
    as [iter Hiter].
  { intros pos r Hin. apply rangeFrom_pos in Hin as [? _].
    pose proof (RuneLen_scalar x Hx). lia. }
  unfold AddPatternString. fold s. rewrite Hr. cbn [sendValues].
  fold (isDigit x). rewrite Hd, Hlen. change (0 + 1) with 1.
  rewrite Hnext. cbn [mbind option_bind]. rewrite Hiter. cbn [mbind option_bind].
  replace ((byteVal c1 <=? byteVal "9") && (byteVal "0" <=? byteVal c1))
    with false by (change (byteVal "9") with 57; lia).
  eexists. split; [done|].
  fold (dropDigits s). rewrite runes_dropDigits. unfold runes. rewrite Hr.
  rewrite fmap_cons. cbn [snd]. rewrite filter_cons_True by done.
  cbn [addRunes recv pathValues children NewValueTrie].
  rewrite lookup_insert_eq, lookup_empty. cbn [fmap option_fmap option_map].
  by rewrite value_addRunes.
Qed.

(** *** A pattern of letters and digits *)

Lemma rangeString_ascii (c : ascii) (t : string) :
  byteVal c < 0x80 ->
  rangeString (String c t) = (0, byteVal c) :: (shift1 <$> rangeString t).
Proof.
  intros Hc.
  assert (Hdec : DecodeRuneInString (String c t) = (byteVal c, 1)).
  { cbn [DecodeRuneInString]. pose proof (byteVal_bounds c).
    by rewrite first_ascii by lia. }
  unfold rangeString. cbn [rangeFrom]. rewrite Hdec. simpl.
  by rewrite <- rangeFrom_shift.
Qed.

Lemma len_String (c : ascii) (t : string) : len (String c t) = len t + 1.
Proof. unfold len. cbn [String.length]. lia. Qed.

Lemma index_head (b : ascii) (t : string) :
  index (String b t) 0 = Some (byteVal b).
Proof.
  unfold index. rewrite len_String. pose proof (len_nonneg t).
  destruct ((0 <? 0) || (len t + 1 <=? 0)) eqn:E; [|done].
  apply orb_true_iff in E as [E|E]; [lia|]. apply Z.leb_le in E. lia.
Qed.

Lemma sent_shift (c : ascii) (t : string) :
  sendValues (String c t) (len t + 1) (shift1 <$> rangeString t) = sent t.
Proof.
  apply sendValues_shift. intros pos r H. by apply rangeFrom_pos in H as [? _].
Qed.

Lemma sent_digit (d : ascii) (t : string) :
  isDigit (byteVal d) = true -> sent (String d t) = sent t.
Proof.
  intros Hd. unfold sent at 1. rewrite rangeString_ascii, len_String.
  - cbn [sendValues]. fold (isDigit (byteVal d)). rewrite Hd. apply sent_shift.
  - unfold isDigit in Hd. change rune9 with 57 in Hd. lia.
Qed.

Lemma sent_letter (c : ascii) (t : string) :
  byteVal c < 0x80 -> isDigit (byteVal c) = false ->
  sent (String c t)
  = match t with
    | EmptyString => Some []
    | String b _ =>
      rest ← sent t;
      Some ((if isDigit (byteVal b) then byteVal b - byteVal "0" else 0) :: rest)
    end.
Proof.
  intros Hc Hd. unfold sent at 1. rewrite rangeString_ascii, len_String by done.
  cbn [sendValues]. fold (isDigit (byteVal c)). rewrite Hd.
  destruct t as [|b t]; [done|].
  replace (0 <? len (String b t) + 1 - 1) with true
    by (symmetry; apply Z.ltb_lt; rewrite len_String;
        pose proof (len_nonneg t); lia).
  rewrite index_cons, index_head by done.
  cbn [mbind option_bind]. rewrite sent_shift.
  destruct (sent (String b t)) as [rest|]; [|done]. cbn [mbind option_bind].
  unfold isDigit. change rune0 with (byteVal "0"). change rune9 with (byteVal "9").
  rewrite (andb_comm (byteVal b <=? _)). by destruct (_ && _).
Qed.

Lemma digitChar_val (d : Z) :
  0 <= d <= 9 -> byteVal (digitChar d) = byteVal "0" + d.
Proof.
  intros Hd. unfold digitChar. apply byteVal_byteOf.
  change (byteVal "0") with 48. lia.
Qed.

Lemma digitChar_isDigit (d : Z) :
  0 <= d <= 9 -> isDigit (byteVal (digitChar d)) = true.
Proof.
  intros Hd. rewrite digitChar_val by done. unfold isDigit.
  change (byteVal "0") with 48. change rune0 with 48. change rune9 with 57. lia.
Qed.

Lemma itemOK_inv (c : ascii) (w : option Z) :
  itemOK (c, w) = true ->
  byteVal c < 0x80 /\ isDigit (byteVal c) = false
  /\ match w with Some d => 0 <= d <= 9 | None => True end.
Proof.
  unfold itemOK. cbn [fst snd]. rewrite !andb_true_iff, negb_true_iff.
  intros [[H1 H2] H3]. split_and!; [lia|done|]. destruct w; [lia|done].
Qed.

(** The values sent for a pattern are the weights of its letters; none
    is sent for a last letter without a digit, for which the closed
    channel gives zero. *)
Lemma sent_pattern (items : list (ascii * option Z)) :
  forallb itemOK items = true ->
  exists iter, sent (pattern items) = Some iter
               /\ recvN (length items) iter = default 0 <$> items.*2.
Proof.
  induction items as [|[c w] items IH]; intros Hok.
  - by exists [].
  - cbn [forallb] in Hok. apply andb_true_iff in Hok as [Hc Hok].
    apply itemOK_inv in Hc as (Hc1 & Hc2 & Hw).
    destruct (IH Hok) as (iter & Hiter & Hrecv).
    cbn [pattern]. rewrite sent_letter by done. destruct w as [d|].
    + rewrite sent_digit, Hiter by (by apply digitChar_isDigit).
      cbn [mbind option_bind]. rewrite digitChar_isDigit, digitChar_val by done.
      exists (d :: iter). split; [f_equal; f_equal; lia|].
      cbn [length recvN recv]. by rewrite Hrecv.
    + destruct items as [|[c2 w2] items].
      * by exists [].
      * cbn [pattern] in *. rewrite Hiter. cbn [mbind option_bind].
        cbn [forallb] in Hok. apply andb_true_iff in Hok as [Hc' _].
        apply itemOK_inv in Hc' as (_ & -> & _).
        exists (0 :: iter). split; [done|].
        cbn [length recvN recv] in *. by rewrite Hrecv.
Qed.

Lemma runes_ascii (c : ascii) (t : string) :
  byteVal c < 0x80 -> runes (String c t) = byteVal c :: runes t.
Proof.
  intros Hc. unfold runes. rewrite rangeString_ascii by done.
  rewrite fmap_cons. f_equal. by rewrite <- list_fmap_compose.
Qed.

Lemma runes_dropDigits_pattern (items : list (ascii * option Z)) :
  forallb itemOK items = true ->
  runes (dropDigits (pattern items)) = byteVal <$> items.*1.
Proof.
  intros Hok. rewrite runes_dropDigits.
  induction items as [|[c w] items IH]; [done|].
  cbn [forallb] in Hok. apply andb_true_iff in Hok as [Hc Hok].
  apply itemOK_inv in Hc as (Hc1 & Hc2 & Hw). specialize (IH Hok).
  cbn [pattern]. rewrite runes_ascii by done.
  rewrite filter_cons_True by done. rewrite !fmap_cons. cbn [fst]. f_equal.
  destruct w as [d|]; [|done].
  pose proof (digitChar_isDigit d Hw) as Hd.
  rewrite runes_ascii.
  - rewrite filter_cons_False; [done|]. by rewrite Hd.
  - rewrite digitChar_val by done. change (byteVal "0") with 48. lia.
Qed.

Lemma runes_bare (items : list (ascii * option Z)) :
  forallb itemOK items = true ->
  runes (pattern (bare <$> items)) = byteVal <$> items.*1.
Proof.
  induction items as [|[c w] items IH]; intros Hok; [done|].
  cbn [forallb] in Hok. apply andb_true_iff in Hok as [Hc Hok].
  apply itemOK_inv in Hc as (Hc1 & _ & _).
  rewrite !fmap_cons. cbn [pattern bare fst snd].
  rewrite runes_ascii by done. by rewrite IH.
Qed.

Lemma Encode_ascii (c : ascii) :
  byteVal c < 0x80 -> EncodeRune (byteVal c) = String c EmptyString.
Proof.
  intros Hc. pose proof (byteVal_bounds c). unfold EncodeRune.
  replace ((0 <=? byteVal c) && (byteVal c <=? 127)) with true by lia.
  f_equal. unfold byteOf, byteVal.
  rewrite Z.mod_small by (unfold byteVal in *; lia).
  by rewrite N2Z.id, ascii_N_embedding.
Qed.

Lemma Encode_digit (d : Z) :
  0 <= d <= 9 ->
  EncodeRune (byteVal "0" + d) = String (digitChar d) EmptyString.
Proof.
  intros Hd. unfold EncodeRune. change (byteVal "0") with 48.
  by replace ((0 <=? 48 + d) && (48 + d <=? 127)) with true by lia.
Qed.

Lemma merge_sort_singleton (x : string) : merge_sort String.le [x] = [x].
Proof. apply Permutation_singleton_r, merge_sort_Permutation. Qed.

Lemma buildMembers_pattern (items : list (ascii * option Z)) (p : ValueTrie)
      (iter : list Z) (prefix : string) (includeValues includeZeroes : bool) :
  forallb itemOK items = true ->
  recvN (length items) iter = default 0 <$> items.*2 ->
  children p = ∅ -> leaf p = false ->
  buildMembers (addRunes p (byteVal <$> items.*1) iter) prefix
               includeValues includeZeroes
  = [prefix +:+ pattern ((if includeValues then shown includeZeroes else bare)
                           <$> items)].
Proof.
  revert p iter prefix.
  induction items as [|[c w] items IH]; intros p iter prefix Hok Hrecv Hch Hl.
  - destruct p as [v l m]. cbn in Hch, Hl. subst. cbn [fmap list_fmap addRunes].
    cbn [buildMembers value leaf children]. rewrite map_fold_empty.
    by rewrite append_empty_r.
  - cbn [forallb] in Hok. apply andb_true_iff in Hok as [Hc Hok].
    apply itemOK_inv in Hc as (Hc1 & Hc2 & Hw).
    rewrite !fmap_cons. cbn [fst addRunes]. cbn [length recvN] in Hrecv.
    destruct (recv iter) as [val iter']. rewrite !fmap_cons in Hrecv.
    cbn [snd] in Hrecv. injection Hrecv as Hval Hrecv.
    destruct p as [v l m]. cbn in Hch, Hl. subst l m.
    cbn [value leaf children]. rewrite lookup_empty, insert_empty.
    cbn [buildMembers value leaf children]. rewrite map_fold_singleton.
    rewrite value_addRunes. cbn [value app]. rewrite app_nil_r.
    rewrite IH by done. f_equal. rewrite Encode_ascii by done.
    assert (Hv : 0 <= val <= 9).
    { subst val. destruct w; cbn in *; lia. }
    destruct includeValues; cbn [andb pattern bare shown fst snd].
    + rewrite <- Hval. destruct (negb (val =? 0) || includeZeroes).
      * rewrite Encode_digit by done.
        by rewrite !append_assoc, !append_cons.
      * by rewrite !append_assoc, !append_cons.
    + by rewrite !append_assoc, !append_cons.
Qed.

(** X30.  [AddPatternString] on a new trie, for a pattern of one-byte
    letters that are no digits, each followed by at most one digit: the
    letters are stored as one member, each letter with the digit that
    follows it as its weight, zero if none does, and [PatternMembers]
    writes the pattern again, with the zeroes or without. *)
Theorem AddPatternString_pattern (items : list (ascii * option Z))
        (includeZeroes : bool) :
  forallb itemOK items = true ->
  exists p',
    AddPatternString NewValueTrie (pattern items) = Some p'
    /\ pathValues p' (runes (pattern (bare <$> items)))
       = Some (default 0 <$> items.*2)
    /\ Members p' = [pattern (bare <$> items)]
    /\ PatternMembers p' includeZeroes
       = [pattern (shown includeZeroes <$> items)].
Proof.
  intros Hok. destruct (sent_pattern items Hok) as (iter & Hiter & Hrecv).
  unfold AddPatternString. fold (sent (pattern items)). rewrite Hiter.
  cbn [mbind option_bind]. fold (dropDigits (pattern items)).
  rewrite runes_dropDigits_pattern by done. eexists. split; [done|].
  split_and!.
  - rewrite runes_bare, pathValues_addRunes_fresh by done.
    by rewrite !length_fmap, Hrecv.
  - unfold Members. rewrite (buildMembers_pattern items) by done.
    apply merge_sort_singleton.
  - unfold PatternMembers. rewrite (buildMembers_pattern items) by done.
    apply merge_sort_singleton.
Qed.

(** *** Runs of the theorems that have hypotheses *)

Lemma Add_keeps_weights_witness :
  let p := Add NewValueTrie "he" [0; 2] in
  pathValues p (runes "he") = Some [0; 2]
  /\ pathValues (Add p "hen" [7; 7; 5]) (runes "he") = Some [0; 2].
Proof.
  intros p. assert (H : pathValues p (runes "he") = Some [0; 2]) by reflexivity.
  split; [exact H|]. exact (Add_keeps_weights p "hen" [7; 7; 5] _ _ H).
Defined.

Lemma Add_fresh_witness :
  let p := Add NewValueTrie "he" [0; 2] in
  "at" <> EmptyString /\ nodeAt p (take 1 (runes "at")) = None
  /\ pathValues (Add p "at" [4]) (runes "at")
     = Some (take (RuneCountInString "at") [4]
             ++ replicate (RuneCountInString "at" - length [4]) 0).
Proof.
  intros p. assert (H1 : "at" <> EmptyString) by discriminate.
  assert (H2 : nodeAt p (take 1 (runes "at")) = None) by reflexivity.
  split; [exact H1|]. split; [exact H2|]. exact (Add_fresh p "at" [4] H1 H2).
Defined.

Lemma ValueTrie_Remove_adds_nothing_witness :
  let p := Add (Add NewValueTrie "he" [0; 2]) "at" [4; 1] in
  Contains (Remove p "he").1 "at" = true
  /\ Contains p "at" = true
  /\ pathValues (Remove p "he").1 (runes "at") = pathValues p (runes "at").
Proof.
  intros p. assert (H : Contains (Remove p "he").1 "at" = true) by reflexivity.
  split; [exact H|]. exact (ValueTrie_Remove_adds_nothing p "he" "at" H).
Defined.

Lemma AddPatternString_digits_witness :
  let p := Add NewValueTrie "he" [0; 2] in
  let p' := mkValueTrie (value p) true (children p) in
  allDigits "42" = true
  /\ AddPatternString p ("42" +:+ "a1b") = AddPatternString p "a1b"
  /\ AddPatternString p "42" = Some p'
  /\ EmptyString ∈ Members p' /\ Contains p' EmptyString = false.
Proof.
  intros p p'. assert (H : allDigits "42" = true) by reflexivity.
  split; [exact H|]. exact (AddPatternString_digits p "42" "a1b" H).
Defined.

Lemma AddPatternString_multibyte_witness :
  let x := 233 in
  scalar x /\ 0x80 <= x /\ EncodeRune x +:+ "5" = "é5"
  /\ exists p', AddPatternString NewValueTrie (EncodeRune x +:+ "5") = Some p'
                /\ pathValues p' [x] = Some [0].
Proof.
  intros x.
  assert (H1 : scalar x)
    by (unfold scalar, x, MaxRune, surrogateMin, surrogateMax; lia).
  assert (H2 : 0x80 <= x) by (unfold x; lia).
  split; [exact H1|]. split; [exact H2|]. split; [reflexivity|].
  exact (AddPatternString_multibyte x "5" H1 H2).
Defined.

Lemma AddPatternString_pattern_witness :
  let items := [("h", None); ("y", Some 3); ("p", None); ("h", None)]%char in
  forallb itemOK items = true /\ pattern items = "hy3ph"
  /\ exists p',
      AddPatternString NewValueTrie (pattern items) = Some p'
      /\ pathValues p' (runes (pattern (bare <$> items)))
         = Some (default 0 <$> items.*2)
      /\ Members p' = [pattern (bare <$> items)]
      /\ PatternMembers p' false = [pattern (shown false <$> items)].
Proof.
  intros items. assert (H : forallb itemOK items = true) by reflexivity.
  split; [exact H|]. split; [reflexivity|].
  exact (AddPatternString_pattern items false H).
Defined.

End valuetrie_laws.
